(** * Snake-Site: the game core of [GameContext] and the loop of [GameBoard]

    A shallow embedding of the state store of the game (the provider
    component that owns [GameState]) and of the timer callback of the
    board component, followed by the theorems that settle what the
    specification says about them.

    Conventions of the embedding.
    - Grid coordinates and the tick period are JavaScript numbers that
      only ever hold integers here; they are modelled as [Z].  A score is
      an integer or no number at all ([NaN], or a slot that reads as
      [undefined]); it is modelled as [option Z].
    - An exception thrown by the JavaScript code (always a [TypeError]:
      a property read or a destructuring of [undefined]) is the result
      [TypeError].
    - [Math.random()] is an input: the successive values it returns form
      a tape of binary64 numbers of [[0,1)].  The product
      [Math.random() * n] is rounded to binary64 (to nearest, ties to
      even) before [Math.floor] is applied.  The rejection loop of
      [generateFood] reads the tape; when the tape ends while the loop is
      still rejecting, the result is [Starved] (the loop has not returned
      within these draws).
    - React hands an updater function the previous state and stores the
      state it returns; every operation is therefore a function from the
      previous state to a result.  Two writes of [updateGame] land in
      arrays it shares with the previous state ([newState.snakes[1]] in
      SINGLE mode, the [push] on a food list that was already empty);
      the state returned is not affected by this sharing and is what the
      model computes. *)

From Stdlib Require Import ZArith String Ascii.
From stdpp Require Import base decidable option list numbers.

Local Open Scope Z_scope.

(** ** Results of the JavaScript functions *)

Inductive result (A : Type) : Type :=
  | Done (a : A)
  | TypeError
  | Starved.
Arguments Done {A} a.
Arguments TypeError {A}.
Arguments Starved {A}.

#[global] Instance result_ret : MRet result := fun _ a => Done a.
#[global] Instance result_bind : MBind result := fun _ _ f m =>
  match m with
  | Done a => f a
  | TypeError => TypeError
  | Starved => Starved
  end.

(** [xs[i]] followed by a property read or a destructuring: [undefined]
    (index out of range) makes that read throw. *)
Definition defined {A : Type} (o : option A) : result A :=
  match o with
  | Some a => Done a
  | None => TypeError
  end.

(** ** Data model *)

Definition Position : Type := Z * Z.

Inductive Direction : Type := UP | DOWN | LEFT | RIGHT.

Inductive GameMode : Type := SINGLE | MULTIPLAYER | AI_VS_AI.

#[global] Instance Direction_eq_dec : EqDecision Direction.
Proof. solve_decision. Defined.

#[global] Instance GameMode_eq_dec : EqDecision GameMode.
Proof. solve_decision. Defined.

Record Snake : Type := mkSnake {
  body : list Position;
  direction : Direction
}.

(** [{ ...s, direction }] *)
Definition withDirection (s : Snake) (d : Direction) : Snake :=
  {| body := body s; direction := d |}.

(** [{ ...snake, body: newBody }] *)
Definition withBody (s : Snake) (b : list Position) : Snake :=
  {| body := b; direction := direction s |}.

Definition GRID_WIDTH : Z := 40.
Definition GRID_HEIGHT : Z := 30.

(** The test of line 235 and of [isSafeMove], negated: the cell lies on
    the board. *)
Definition inGrid (p : Position) : bool :=
  negb ((p.1 <? 0) || (p.1 >=? GRID_WIDTH) || (p.2 <? 0) || (p.2 >=? GRID_HEIGHT)).

(** [([sx, sy]) => sx === position[0] && sy === position[1]] *)
Definition sameCell (position q : Position) : bool :=
  (q.1 =? position.1) && (q.2 =? position.2).

(** ** The random tape *)

(** One value of [Math.random()]: a binary64 number of [[0,1)], written
    [mant * 2^expo] with a significand of at most 53 bits and an exponent
    from -1074 to -53.  Every such pair is a binary64 number of [[0,1)],
    and every binary64 number of [[0,1)], subnormal ones included, is
    such a pair. *)
Record Sample : Type := mkSample {
  mant : Z;
  expo : Z;
  sample_unit :
    (0 <=? mant) && (mant <? 2 ^ 53) && (-1074 <=? expo) && (expo <=? -53) = true
}.

(** The rounding of a binary64 multiplication, on the integer [p] that
    is the exact product of the two significands: the nearest integer
    with at most 53 significant bits, ties going to the even
    significand. *)
Definition roundToDouble (p : Z) : Z :=
  let bits := Z.log2 p + 1 in
  if bits <=? 53 then p
  else
    let shift := bits - 53 in
    let q := p / 2 ^ shift in
    let r := p mod 2 ^ shift in
    let half := 2 ^ (shift - 1) in
    (if (half <? r) || ((r =? half) && Z.odd q) then q + 1 else q) * 2 ^ shift.

(** [Math.floor(Math.random() * n)] for the sample [u] and a positive
    integer [n] below 2^53: the product [mant * n * 2^expo] is rounded to
    binary64, then floored. *)
Definition floorScaled (u : Sample) (n : Z) : Z :=
  roundToDouble (mant u * n) / 2 ^ (- expo u).

(** [generateRandomPosition]: [u] and [v] are the two values that
    [Math.random()] returns, in evaluation order. *)
Definition generateRandomPosition (u v : Sample) : Position :=
  (floorScaled u GRID_WIDTH, floorScaled v GRID_HEIGHT).

(** The cells that successive calls of [generateRandomPosition] return
    when [Math.random()] reads the tape. *)
Fixpoint draws (tape : list Sample) : list Position :=
  match tape with
  | u :: v :: rest => generateRandomPosition u v :: draws rest
  | _ => []
  end.

(** ** Helpers of the provider *)

Definition isPositionOccupied (position : Position) (snakes : list Snake)
    (foods : list Position) : bool :=
  let occupiedBySnake :=
    existsb (fun snake => existsb (sameCell position) (body snake)) snakes in
  let occupiedByFood := existsb (sameCell position) foods in
  occupiedBySnake || occupiedByFood.

(** The [do ... while] loop of [generateFood]: draw, and draw again while
    the cell is occupied. *)
Fixpoint generateFood (snakes : list Snake) (foods : list Position)
    (tape : list Sample) {struct tape} : result Position :=
  match tape with
  | u :: v :: rest =>
      let position := generateRandomPosition u v in
      if isPositionOccupied position snakes foods
      then generateFood snakes foods rest
      else Done position
  | _ => Starved
  end.

Definition isSafeMove (position : Position) (snakes : list Snake) : bool :=
  let '(x, y) := position in
  if (x <? 0) || (x >=? GRID_WIDTH) || (y <? 0) || (y >=? GRID_HEIGHT) then false
  else negb (existsb (fun snake =>
               existsb (fun '(sx, sy) => (sx =? x) && (sy =? y)) (body snake)) snakes).

Definition getNextPosition (position : Position) (direction : Direction) : Position :=
  let '(x, y) := position in
  match direction with
  | UP => (x, y - 1)
  | DOWN => (x, y + 1)
  | LEFT => (x - 1, y)
  | RIGHT => (x + 1, y)
  end.

Definition opposites (d : Direction) : Direction :=
  match d with
  | UP => DOWN
  | DOWN => UP
  | LEFT => RIGHT
  | RIGHT => LEFT
  end.

(** ** The greedy heuristic of the computer-controlled snakes *)

Definition directions : list Direction := [UP; DOWN; LEFT; RIGHT].

(** The callback of the first [reduce]: keep [prev] unless [curr] is
    strictly closer to the head. *)
Definition closerFood (head prev curr : Position) : Position :=
  let prevDist := Z.abs (prev.1 - head.1) + Z.abs (prev.2 - head.2) in
  let currDist := Z.abs (curr.1 - head.1) + Z.abs (curr.2 - head.2) in
  if currDist <? prevDist then curr else prev.

(** One entry of [directionScores]. *)
Definition scoreOf (head targetFood : Position) (dir : Direction) : Direction * Z :=
  let '(nx, ny) := getNextPosition head dir in
  let '(fx, fy) := targetFood in
  let distanceToFood := Z.abs (nx - fx) + Z.abs (ny - fy) in
  (dir, - distanceToFood).

(** The callback of the last [reduce]. *)
Definition betterScore (best current : Direction * Z) : Direction * Z :=
  if current.2 >? best.2 then current else best.

Definition getNextDirection (snake : Snake) (foodList : list Position)
    (otherSnake : Snake) : result Direction :=
  head ← defined (body snake !! 0%nat);
  first ← defined (foodList !! 0%nat);
  let targetFood := foldl (closerFood head) first foodList in
  let validDirections :=
    List.filter (fun dir =>
                   bool_decide (dir ≠ opposites (direction snake))
                   && isSafeMove (getNextPosition head dir) [snake; otherSnake])
                directions in
  otherHead ← defined (body otherSnake !! 0%nat);
  let predictedOtherHead := getNextPosition otherHead (direction otherSnake) in
  let filteredDirections :=
    List.filter (fun dir =>
                   let candidate := getNextPosition head dir in
                   negb (candidate.1 =? predictedOtherHead.1)
                   || negb (candidate.2 =? predictedOtherHead.2))
                validDirections in
  let finalDirections :=
    match filteredDirections with [] => validDirections | _ => filteredDirections end in
  match map (scoreOf head targetFood) finalDirections with
  | [] => Done (direction snake)
  | best :: rest => Done (foldl betterScore best rest).1
  end.

(** ** Array helpers *)

(** [Array.prototype.some] with a callback that also reads the index. *)
Fixpoint someFrom {A : Type} (f : A → nat → bool) (index : nat) (l : list A) : bool :=
  match l with
  | [] => false
  | x :: rest => f x index || someFrom f (S index) rest
  end.

Definition some {A : Type} (f : A → nat → bool) (l : list A) : bool := someFrom f 0 l.

(** [Array.prototype.findIndex]; [None] is the result [-1]. *)
Definition findIndex {A : Type} (P : A → Prop) `{∀ x, Decision (P x)} (l : list A)
    : option nat :=
  fst <$> list_find P l.

(** [newScores[snakeIndex] += 1].  A slot that holds no integer ([NaN],
    or a slot that reads as [undefined]) is [None]; adding 1 to it gives
    [NaN].  Past the end, JavaScript extends the array: the slots in
    between are empty and the slot written holds [undefined + 1], which is
    [NaN]. *)
Definition bumpScore (snakeIndex : nat) (newScores : list (option Z)) : list (option Z) :=
  if decide (snakeIndex < length newScores)%nat
  then alter (fmap (fun n => n + 1)) snakeIndex newScores
  else newScores ++ replicate (snakeIndex - length newScores) None ++ [None].

(** ** The state and its store *)

Section Store.

(** [PowerUp] and [SnakeEffects] are named by the interface [GameState]
    and declared nowhere in the sources; the code never reads the three
    fields that use them. *)
Context {PowerUp SnakeEffects : Type}.

Record GameState : Type := mkGameState {
  isRunning : bool;
  snakes : list Snake;
  food : list Position;
  scores : list (option Z);
  speed : Z;
  snakeColors : string * string;
  gameMode : GameMode;
  powerUps : option (list PowerUp);
  snakeEffects : option (SnakeEffects * SnakeEffects);
  lastPowerUpSpawn : option Z
}.

(** [{ ...prev, food }], [{ ...prev, snakes }] and the like. *)
Definition withFood (prev : GameState) (f : list Position) : GameState :=
  mkGameState (isRunning prev) (snakes prev) f (scores prev) (speed prev)
    (snakeColors prev) (gameMode prev) (powerUps prev) (snakeEffects prev)
    (lastPowerUpSpawn prev).

Definition withSnakes (prev : GameState) (l : list Snake) : GameState :=
  mkGameState (isRunning prev) l (food prev) (scores prev) (speed prev)
    (snakeColors prev) (gameMode prev) (powerUps prev) (snakeEffects prev)
    (lastPowerUpSpawn prev).

(** The two snakes every game starts with. *)
Definition initialSnakes : list Snake :=
  [ mkSnake [(5, 5)] RIGHT;
    mkSnake [(GRID_WIDTH - 6, GRID_HEIGHT - 6)] LEFT ].

(** [createInitialState]: the object literal sets seven fields and leaves
    the three reserved ones absent. *)
Definition createInitialState (mode : GameMode) (tape : list Sample) : result GameState :=
  let snakes := initialSnakes in
  position ← generateFood snakes [] tape;
  Done {| isRunning := false;
          snakes := snakes;
          food := [position];
          scores := [Some 0; Some 0];
          speed := 100;
          snakeColors := ("#4ade80"%string, "#60a5fa"%string);
          gameMode := mode;
          powerUps := None;
          snakeEffects := None;
          lastPowerUpSpawn := None |}.

(** [startGame]: a fresh initial state with [speed], [snakeColors] taken
    from the previous state and [isRunning] set. *)
Definition startGame (mode : GameMode) (tape : list Sample) (prev : GameState)
    : result GameState :=
  fresh ← createInitialState mode tape;
  Done {| isRunning := true;
          snakes := snakes fresh;
          food := food fresh;
          scores := scores fresh;
          speed := speed prev;
          snakeColors := snakeColors prev;
          gameMode := gameMode fresh;
          powerUps := powerUps fresh;
          snakeEffects := snakeEffects fresh;
          lastPowerUpSpawn := lastPowerUpSpawn fresh |}.

(** [updateSettings]: each of the two settings is present or not. *)
Definition updateSettings (newSpeed : option Z) (newColors : option (string * string))
    (prev : GameState) : GameState :=
  mkGameState (isRunning prev) (snakes prev) (food prev) (scores prev)
    (default (speed prev) newSpeed) (default (snakeColors prev) newColors)
    (gameMode prev) (powerUps prev) (snakeEffects prev) (lastPowerUpSpawn prev).

Definition setFoodPosition (position : Position) (prev : GameState) : GameState :=
  if negb (isRunning prev) then prev
  else if isPositionOccupied position (snakes prev) (food prev) then prev
  else withFood prev (food prev ++ [position]).

Definition setSnakeDirection (snakeIndex : nat) (direction' : Direction)
    (prev : GameState) : result GameState :=
  snake ← defined (snakes prev !! snakeIndex);
  if decide (opposites (direction snake) = direction') then Done prev
  else
    let newSnakes :=
      imap (fun index s =>
              if decide (index = snakeIndex) then withDirection s direction' else s)
           (snakes prev) in
    Done (withSnakes prev newSnakes).

(** *** One tick *)

(** The direction pass of [AI_VS_AI]: the callback of [prev.snakes.map],
    applied from [index] on.  [all] is [prev.snakes]. *)
Fixpoint aiDirections (all : list Snake) (foodList : list Position) (index : nat)
    (l : list Snake) : result (list Snake) :=
  match l with
  | [] => Done []
  | snake :: rest =>
      otherSnake ← defined (all !! (if decide (index = 0%nat) then 1%nat else 0%nat));
      newDirection ← getNextDirection snake foodList otherSnake;
      rest' ← aiDirections all foodList (S index) rest;
      Done (withDirection snake newDirection :: rest')
  end.

(** Lines 207-224: the snakes the movement pass starts from. *)
Definition resolveDirections (prev : GameState) : result (list Snake) :=
  match gameMode prev with
  | AI_VS_AI => aiDirections (snakes prev) (food prev) 0 (snakes prev)
  | SINGLE =>
      humanSnake ← defined (snakes prev !! 0%nat);
      aiSnake ← defined (snakes prev !! 1%nat);
      newDirection ← getNextDirection aiSnake (food prev) humanSnake;
      Done (<[1%nat := withDirection aiSnake newDirection]> (snakes prev))
  | MULTIPLAYER => Done (snakes prev)
  end.

(** What the callback of the movement pass assigns outside its own
    snake: [newState.isRunning], [newScores] and [newState.food]. *)
Record Pending : Type := mkPending {
  newIsRunning : bool;
  newScores : list (option Z);
  newFood : list Position
}.

(** Lines 227-250, the callback of the movement pass for one snake. *)
Definition moveSnake (prevFood : list Position) (acc : Pending) (snakeIndex : nat)
    (snake : Snake) : result (Snake * Pending) :=
  head0 ← defined (body snake !! 0%nat);
  let head :=
    match direction snake with
    | UP => (head0.1, head0.2 - 1)
    | DOWN => (head0.1, head0.2 + 1)
    | LEFT => (head0.1 - 1, head0.2)
    | RIGHT => (head0.1 + 1, head0.2)
    end in
  if (head.1 <? 0) || (head.1 >=? GRID_WIDTH) || (head.2 <? 0) || (head.2 >=? GRID_HEIGHT)
  then Done (snake, mkPending false (newScores acc) (newFood acc))
  else
    match findIndex (fun food => food.1 = head.1 ∧ food.2 = head.2) prevFood with
    | Some foodIndex =>
        Done (withBody snake (head :: body snake),
              mkPending (newIsRunning acc)
                        (bumpScore snakeIndex (newScores acc))
                        (delete foodIndex prevFood))
    | None =>
        Done (withBody snake (head :: take (length (body snake) - 1) (body snake)), acc)
    end.

(** The movement pass: [newState.snakes.map(...)], from [snakeIndex] on. *)
Fixpoint moveSnakes (prevFood : list Position) (acc : Pending) (snakeIndex : nat)
    (l : list Snake) : result (list Snake * Pending) :=
  match l with
  | [] => Done ([], acc)
  | snake :: rest =>
      '(snake', acc') ← moveSnake prevFood acc snakeIndex snake;
      '(rest', acc'') ← moveSnakes prevFood acc' (S snakeIndex) rest;
      Done (snake' :: rest', acc'')
  end.

(** Direction pass and movement pass together. *)
Definition movementPhase (prev : GameState) : result (list Snake * Pending) :=
  directed ← resolveDirections prev;
  moveSnakes (food prev) (mkPending (isRunning prev) (scores prev) (food prev)) 0 directed.

(** [newState.snakes.flatMap(snake => snake.body)] *)
Definition allSegments (l : list Snake) : list Position := l ≫= body.

(** Lines 261-265. *)
Definition hasCollision (segments : list Position) : bool :=
  some (fun segment index =>
          some (fun otherSegment otherIndex =>
                  bool_decide (index ≠ otherIndex)
                  && (segment.1 =? otherSegment.1) && (segment.2 =? otherSegment.2))
               segments)
       segments.

(** Lines 253-255: one cell is pushed on an empty food list. *)
Definition replenish (moved : list Snake) (foodList : list Position)
    (tape : list Sample) : result (list Position) :=
  match foodList with
  | [] => position ← generateFood moved [] tape; Done [position]
  | _ :: _ => Done foodList
  end.

Definition updateGame (tape : list Sample) (prev : GameState) : result GameState :=
  '(moved, acc) ← movementPhase prev;
  foodList ← replenish moved (newFood acc) tape;
  Done {| isRunning := if hasCollision (allSegments moved) then false else newIsRunning acc;
          snakes := moved;
          food := foodList;
          scores := newScores acc;
          speed := speed prev;
          snakeColors := snakeColors prev;
          gameMode := gameMode prev;
          powerUps := powerUps prev;
          snakeEffects := snakeEffects prev;
          lastPowerUpSpawn := lastPowerUpSpawn prev |}.

(** The timer callback of the board component:
    [if (gameState.isRunning) { updateGame(); render(); }]. *)
Definition gameLoop (tape : list Sample) (gameState : GameState) : result GameState :=
  if isRunning gameState then updateGame tape gameState else Done gameState.

End Store.

(** ** The handlers of the board component *)

(** [String.prototype.toLowerCase] on the keys of the keyboard events.
    The handler compares its result with the one-letter strings [w], [a],
    [s] and [d] only; the letters A to Z are mapped to a to z and every
    other character is left as it is. *)
Definition lowerLetter (c : ascii) : ascii :=
  let n := nat_of_ascii c in
  if (65 <=? n)%nat && (n <=? 90)%nat then ascii_of_nat (n + 32) else c.

Fixpoint toLowerCase (key : string) : string :=
  match key with
  | EmptyString => EmptyString
  | String c rest => String (lowerLetter c) (toLowerCase rest)
  end.

Section Board.

Context {PowerUp SnakeEffects : Type}.

(** [if (cond) setSnakeDirection(snakeIndex, direction);] as a step on
    the state of the store. *)
Definition whenKey (cond : bool) (snakeIndex : nat) (direction' : Direction)
    (prev : @GameState PowerUp SnakeEffects) : result GameState :=
  if cond then setSnakeDirection snakeIndex direction' prev else Done prev.

(** The four tests on the letter keys, for the first snake. *)
Definition letterKeys (key : string) (prev : @GameState PowerUp SnakeEffects)
    : result GameState :=
  s1 ← whenKey (String.eqb (toLowerCase key) "w") 0 UP prev;
  s2 ← whenKey (String.eqb (toLowerCase key) "a") 0 LEFT s1;
  s3 ← whenKey (String.eqb (toLowerCase key) "s") 0 DOWN s2;
  whenKey (String.eqb (toLowerCase key) "d") 0 RIGHT s3.

(** The four tests on the arrow keys, for the second snake. *)
Definition arrowKeys (key : string) (prev : @GameState PowerUp SnakeEffects)
    : result GameState :=
  s1 ← whenKey (String.eqb key "ArrowUp") 1 UP prev;
  s2 ← whenKey (String.eqb key "ArrowLeft") 1 LEFT s1;
  s3 ← whenKey (String.eqb key "ArrowDown") 1 DOWN s2;
  whenKey (String.eqb key "ArrowRight") 1 RIGHT s3.

(** [handleKeyDown]; [key] is [e.key].  The handler reads the running
    flag and the mode of the state the component rendered, which is the
    state the queued updates start from. *)
Definition handleKeyDown (key : string) (gameState : @GameState PowerUp SnakeEffects)
    : result GameState :=
  if negb (isRunning gameState) then Done gameState
  else
    s1 ← (if decide (gameMode gameState = SINGLE) then letterKeys key gameState
          else Done gameState);
    if decide (gameMode gameState = MULTIPLAYER)
    then s2 ← letterKeys key s1; arrowKeys key s2
    else Done s1.

(** [handleClick]; [x] and [y] are the two floored quotients the handler
    computes from the pointer position (that arithmetic is on floating
    point numbers and is not modelled; a quotient that is no finite
    number fails the bounds test like an integer off the board). *)
Definition handleClick (x y : Z) (gameState : @GameState PowerUp SnakeEffects)
    : GameState :=
  if negb (isRunning gameState) then gameState
  else if (x >=? 0) && (x <? 40) && (y >=? 0) && (y <? 30)
       then setFoodPosition (x, y) gameState
       else gameState.

(** What the timer and the components can ask of the store. *)
Inductive BoardEvent : Type :=
  | TimerFires (tape : list Sample)
  | Clicks (x y : Z)
  | Presses (key : string)
  | Starts (mode : GameMode) (tape : list Sample)
  | Configures (newSpeed : option Z) (newColors : option (string * string)).

Definition boardStep (e : BoardEvent) (gameState : @GameState PowerUp SnakeEffects)
    : result GameState :=
  match e with
  | TimerFires tape => gameLoop tape gameState
  | Clicks x y => Done (handleClick x y gameState)
  | Presses key => handleKeyDown key gameState
  | Starts mode tape => startGame mode tape gameState
  | Configures newSpeed newColors => Done (updateSettings newSpeed newColors gameState)
  end.

(** A run of the board: the events are handled one after the other. *)
Fixpoint boardRun (events : list BoardEvent) (gameState : @GameState PowerUp SnakeEffects)
    : result GameState :=
  match events with
  | [] => Done gameState
  | e :: rest => s ← boardStep e gameState; boardRun rest s
  end.

End Board.

(** ** Vocabulary of the statements *)

(** The head a snake moves to: its first segment shifted one cell along
    its direction.  A snake without segments has none. *)
Definition newHead (snake : Snake) : option Position :=
  (fun head0 => getNextPosition head0 (direction snake)) <$> body snake !! 0%nat.

(** The direction a snake moves along in a tick is the one of
    [resolveDirections]; only the direction differs from the snake of the
    previous state. *)
Definition sameBodies (l l' : list Snake) : Prop :=
  length l' = length l ∧ ∀ i, body <$> l' !! i = body <$> l !! i.

(** Every snake of the list has a first segment. *)
Definition allHeaded (l : list Snake) : Prop := ∀ snake, snake ∈ l → body snake ≠ [].

(** The tape draws a cell that no snake of the list occupies or moves its
    head to. *)
Definition freeDraw (tape : list Sample) (l : list Snake) : Prop :=
  ∃ q, q ∈ draws tape ∧ ∀ snake, snake ∈ l → (q ∉ body snake) ∧ newHead snake ≠ Some q.

(** The distance the heuristic minimises. *)
Definition manhattan (a b : Position) : Z := Z.abs (a.1 - b.1) + Z.abs (a.2 - b.2).

(** The states the store is meant to hold: two snakes with at least one
    segment each, every segment and every food item on the board, some
    food, and two scores that are natural numbers. *)
Definition sound {PowerUp SnakeEffects : Type} (s : @GameState PowerUp SnakeEffects) : Prop :=
  (∃ a b, snakes s = [a; b] ∧ body a ≠ [] ∧ body b ≠ [])
  ∧ Forall (fun p => inGrid p = true) (allSegments (snakes s))
  ∧ food s ≠ []
  ∧ Forall (fun p => inGrid p = true) (food s)
  ∧ ∃ x y, scores s = [Some x; Some y] ∧ 0 ≤ x ∧ 0 ≤ y.

(** The candidate lists of [getNextDirection], by the names the function
    gives them: [head] is the head of the snake and [predictedOtherHead]
    the cell the other snake's head is about to move to. *)
Definition validDirections (snake otherSnake : Snake) (head : Position) : list Direction :=
  List.filter (fun dir =>
                 bool_decide (dir ≠ opposites (direction snake))
                 && isSafeMove (getNextPosition head dir) [snake; otherSnake])
              directions.

Definition filteredDirections (snake otherSnake : Snake) (head predictedOtherHead : Position)
    : list Direction :=
  List.filter (fun dir =>
                 let candidate := getNextPosition head dir in
                 negb (candidate.1 =? predictedOtherHead.1)
                 || negb (candidate.2 =? predictedOtherHead.2))
              (validDirections snake otherSnake head).

Definition finalDirections (snake otherSnake : Snake) (head predictedOtherHead : Position)
    : list Direction :=
  match filteredDirections snake otherSnake head predictedOtherHead with
  | [] => validDirections snake otherSnake head
  | _ :: _ => filteredDirections snake otherSnake head predictedOtherHead
  end.

(** The keys the board listens to, by the direction they ask for. *)
Definition letterKey (d : Direction) : string :=
  match d with
  | UP => "w"
  | LEFT => "a"
  | DOWN => "s"
  | RIGHT => "d"
  end.

Definition arrowKey (d : Direction) : string :=
  match d with
  | UP => "ArrowUp"
  | LEFT => "ArrowLeft"
  | DOWN => "ArrowDown"
  | RIGHT => "ArrowRight"
  end.

(** The events that play the game, as opposed to those that restart or
    configure it. *)
Definition playsGame (e : BoardEvent) : bool :=
  match e with
  | TimerFires _ | Clicks _ _ | Presses _ => true
  | Starts _ _ | Configures _ _ => false
  end.

(** ** States and tapes of the worked instances *)

(** [Math.random()] returning 0.5: [generateRandomPosition] answers
    [(20, 15)]. *)
Definition half : Sample := mkSample (2 ^ 52) (-53) eq_refl.

Definition centreTape : list Sample := [half; half].

(** The binary64 number nearest to 0.975, and the number [k/2^52] just
    below 0.95 with [40 * k = 38 * 2^52 - 8]: for both the rounding of
    the product by 40 reaches the next integer. *)
Definition nearLastColumn : Sample := mkSample 8782019273372467 (-53) eq_refl.

Definition belowColumn38 : Sample := mkSample 8556839292003942 (-53) eq_refl.

(** The largest binary64 number below 1. *)
Definition largestSample : Sample := mkSample (2 ^ 53 - 1) (-53) eq_refl.

(** A value of [Math.random()] in the middle of the interval that
    [Math.floor(Math.random() * n)] maps to [x], when there is one. *)
Definition cellSample (n x : Z) : option Sample :=
  let m := ((2 * x + 1) * 2 ^ 52) / n in
  match Bool.bool_dec
          ((0 <=? m) && (m <? 2 ^ 53) && (-1074 <=? -53) && (-53 <=? -53)) true with
  | left ok => Some (mkSample m (-53) ok)
  | right _ => None
  end.

Definition coversCell (n x : Z) : bool :=
  match cellSample n x with
  | Some u => floorScaled u n =? x
  | None => false
  end.

(** A state with the scores and settings of a fresh game and none of the
    reserved fields. *)
Definition plainState (running : bool) (mode : GameMode) (l : list Snake)
    (foodList : list Position) : @GameState unit unit :=
  {| isRunning := running;
     snakes := l;
     food := foodList;
     scores := [Some 0; Some 0];
     speed := 100;
     snakeColors := ("#4ade80"%string, "#60a5fa"%string);
     gameMode := mode;
     powerUps := None;
     snakeEffects := None;
     lastPowerUpSpawn := None |}.

(** The state [startGame] builds from [centreTape], stopped and running. *)
Definition stoppedGame : @GameState unit unit :=
  plainState false MULTIPLAYER initialSnakes [(20, 15)].

Definition runningGame : @GameState unit unit :=
  plainState true MULTIPLAYER initialSnakes [(20, 15)].

(** Both snakes are one step away from a food item of their own. *)
Definition twoMeals : @GameState unit unit :=
  plainState true MULTIPLAYER initialSnakes [(6, 5); (33, 24)].

(** The first snake is one step away from the only food item. *)
Definition oneMeal : @GameState unit unit :=
  plainState true MULTIPLAYER initialSnakes [(6, 5)].

(** The first snake faces the right wall. *)
Definition atWall : @GameState unit unit :=
  plainState true MULTIPLAYER
    [mkSnake [(39, 5); (38, 5)] RIGHT; mkSnake [(34, 24); (35, 24)] LEFT] [(33, 24)].

Definition atWallAfter : @GameState unit unit :=
  {| isRunning := false;
     snakes := [mkSnake [(39, 5); (38, 5)] RIGHT;
                mkSnake [(33, 24); (34, 24); (35, 24)] LEFT];
     food := [(20, 15)];
     scores := [Some 0; Some 1];
     speed := 100;
     snakeColors := ("#4ade80"%string, "#60a5fa"%string);
     gameMode := MULTIPLAYER;
     powerUps := None;
     snakeEffects := None;
     lastPowerUpSpawn := None |}.

(** The two snakes face each other with one free cell between them. *)
Definition headOn : @GameState unit unit :=
  plainState true MULTIPLAYER [mkSnake [(5, 5)] RIGHT; mkSnake [(7, 5)] LEFT] [(20, 15)].

Definition headOnAfter : @GameState unit unit :=
  plainState false MULTIPLAYER [mkSnake [(6, 5)] RIGHT; mkSnake [(6, 5)] LEFT] [(20, 15)].

Definition twoMealsAfter : @GameState unit unit :=
  {| isRunning := true;
     snakes := [mkSnake [(6, 5); (5, 5)] RIGHT; mkSnake [(33, 24); (34, 24)] LEFT];
     food := [(6, 5)];
     scores := [Some 1; Some 1];
     speed := 100;
     snakeColors := ("#4ade80"%string, "#60a5fa"%string);
     gameMode := MULTIPLAYER;
     powerUps := None;
     snakeEffects := None;
     lastPowerUpSpawn := None |}.

(** The first state of the provider when [centreTape] is drawn. *)
Definition firstState : @GameState unit unit :=
  plainState false SINGLE initialSnakes [(20, 15)].

(** The snake of the scenario of the heuristic and a snake far from it. *)
Definition scenarioSnake : Snake := mkSnake [(10, 10)] RIGHT.

Definition farSnake : Snake := mkSnake [(34, 24)] LEFT.

(** * Properties *)

(** ** The result monad *)

Lemma bind_Done_inv {A B : Type} (m : result A) (f : A → result B) (b : B) :
  m ≫= f = Done b → ∃ a, m = Done a ∧ f a = Done b.
Proof. destruct m as [a| |]; simpl; intros H; try discriminate. eauto. Qed.

Lemma defined_Done_inv {A : Type} (o : option A) (a : A) : defined o = Done a → o = Some a.
Proof. destruct o; simpl; congruence. Qed.

(** Take a hypothesis [m ≫= f = Done b] apart. *)
Ltac bind_inv H :=
  let a := fresh "a" in
  let Ha := fresh "Ha" in
  apply bind_Done_inv in H as (a & Ha & H).

(** ** Cells *)

Lemma sameCell_true (position q : Position) : sameCell position q = true ↔ q = position.
Proof.
  destruct position as [x y], q as [x' y']. unfold sameCell. simpl.
  rewrite andb_true_iff, !Z.eqb_eq. split; [intros [-> ->]; reflexivity | intros [= -> ->]; auto].
Qed.

Lemma inGrid_true (p : Position) :
  inGrid p = true ↔ 0 ≤ p.1 < GRID_WIDTH ∧ 0 ≤ p.2 < GRID_HEIGHT.
Proof.
  unfold inGrid. rewrite negb_true_iff, !orb_false_iff, !Z.ltb_ge, !Z.geb_leb, !Z.leb_gt. lia.
Qed.

Lemma existsb_sameCell (position : Position) (l : list Position) :
  existsb (sameCell position) l = true ↔ position ∈ l.
Proof.
  rewrite existsb_exists, list_elem_of_In. split.
  - intros (q & Hq & Heq). apply sameCell_true in Heq. by subst.
  - intros Hin. exists position. split; [done | by apply sameCell_true].
Qed.

Lemma isPositionOccupied_true (position : Position) (l : list Snake) (foods : list Position) :
  isPositionOccupied position l foods = true
  ↔ (∃ snake, snake ∈ l ∧ position ∈ body snake) ∨ position ∈ foods.
Proof.
  unfold isPositionOccupied. rewrite orb_true_iff, existsb_exists, existsb_sameCell.
  apply or_iff_compat_r. split.
  - intros (snake & Hin & Hb). exists snake. by rewrite list_elem_of_In, <- existsb_sameCell.
  - intros (snake & Hin & Hb). exists snake. by rewrite <- list_elem_of_In, existsb_sameCell.
Qed.

Lemma isPositionOccupied_false (position : Position) (l : list Snake) (foods : list Position) :
  isPositionOccupied position l foods = false
  ↔ (∀ snake, snake ∈ l → position ∉ body snake) ∧ position ∉ foods.
Proof.
  rewrite <- not_true_iff_false, isPositionOccupied_true. split.
  - intros H. split; [intros snake Hin Hb | intros Hf]; apply H; eauto.
  - intros [H1 H2] [(snake & Hin & Hb) | Hf]; [by apply (H1 snake) | done].
Qed.

(** ** The random tape *)

(** The rounded product is at most half a unit in the last place above
    the exact one. *)
Lemma roundToDouble_near (p k : Z) :
  0 ≤ p < 2 ^ (53 + k) → 0 ≤ k →
  0 ≤ roundToDouble p ∧ 2 * roundToDouble p ≤ 2 * p + 2 ^ k.
Proof.
  intros [Hp0 Hp] Hk. unfold roundToDouble.
  assert (0 < 2 ^ k) as Hk2 by (apply Z.pow_pos_nonneg; lia).
  destruct (Z.leb_spec (Z.log2 p + 1) 53) as [Hexact | Hlong]; [lia |].
  assert (0 < p) as Hpos.
  { destruct (Z.eq_dec p 0) as [-> |]; [simpl in Hlong; lia | lia]. }
  assert (Z.log2 p < 53 + k) as Hlog by (apply Z.log2_lt_pow2; lia).
  set (shift := Z.log2 p + 1 - 53) in *.
  assert (2 ^ shift = 2 * 2 ^ (shift - 1)) as Hdouble.
  { rewrite <- Z.pow_succ_r by lia. f_equal. lia. }
  assert (0 < 2 ^ (shift - 1)) as Hhalf by (apply Z.pow_pos_nonneg; lia).
  assert (2 ^ shift ≤ 2 ^ k) as Hle by (apply Z.pow_le_mono_r; lia).
  pose proof (Z.div_mod p (2 ^ shift)) as Hdm.
  pose proof (Z.mod_pos_bound p (2 ^ shift)) as Hr.
  assert (0 ≤ p / 2 ^ shift) as Hq by (apply Z.div_pos; lia).
  set (q := p / 2 ^ shift) in *. set (r := p mod 2 ^ shift) in *.
  set (h := 2 ^ (shift - 1)) in *.
  destruct ((h <? r) || ((r =? h) && Z.odd q)) eqn:Hup.
  - assert (h ≤ r).
    { apply orb_true_iff in Hup as [Hlt%Z.ltb_lt | [Heq%Z.eqb_eq _]%andb_true_iff]; lia. }
    split; nia.
  - split; nia.
Qed.

Lemma floorScaled_range (u : Sample) (n : Z) : 0 < n → 0 ≤ floorScaled u n < n.
Proof.
  intros Hn. destruct u as [m e Hok]. unfold floorScaled. simpl.
  apply andb_true_iff in Hok as [[[Hm0 Hm1]%andb_true_iff _]%andb_true_iff He].
  apply Z.leb_le in Hm0, He. apply Z.ltb_lt in Hm1.
  assert (2 ^ 53 ≤ 2 ^ (- e)) as Hscale by (apply Z.pow_le_mono_r; lia).
  assert (0 < 2 ^ 53) as H53 by reflexivity.
  assert (∃ k, 0 ≤ k ∧ n ≤ 2 ^ k ∧ 2 ^ k < 2 * n) as (k & Hk & Hnk & Hkn).
  { destruct (Z.eq_dec n 1) as [-> |Hn1]; [exists 0; simpl; lia |].
    destruct (Z.log2_up_spec n) as [Hlo Hhi]; [lia |].
    assert (0 < Z.log2_up n) by (apply Z.log2_up_pos; lia).
    exists (Z.log2_up n). split_and!; [lia | done |].
    replace (Z.log2_up n) with (Z.succ (Z.pred (Z.log2_up n))) by lia.
    rewrite Z.pow_succ_r by lia. lia. }
  destruct (roundToDouble_near (m * n) k) as [Hr0 Hr]; [| done |].
  { split; [nia |]. rewrite Z.pow_add_r by lia. nia. }
  split.
  - apply Z.div_pos; lia.
  - apply Z.div_lt_upper_bound; [lia |]. nia.
Qed.

Lemma generateRandomPosition_inGrid (u v : Sample) :
  inGrid (generateRandomPosition u v) = true.
Proof.
  apply inGrid_true. unfold generateRandomPosition. simpl.
  split; apply floorScaled_range; reflexivity.
Qed.

(** The rounding at work: for these two values the exact product with
    40 is below the integer that the binary64 product reaches. *)
Example floorScaled_rounds_up :
  floorScaled nearLastColumn GRID_WIDTH = 39
  ∧ mant nearLastColumn * GRID_WIDTH / 2 ^ 53 = 38
  ∧ floorScaled belowColumn38 GRID_WIDTH = 38
  ∧ mant belowColumn38 * GRID_WIDTH / 2 ^ 53 = 37.
Proof. by vm_compute. Qed.

Example floorScaled_largest :
  floorScaled largestSample GRID_WIDTH = 39 ∧ floorScaled largestSample GRID_HEIGHT = 29.
Proof. by vm_compute. Qed.

(** Every column and every row is drawn for some value of
    [Math.random()]: each is checked on the sample [cellSample] gives. *)
Lemma coversCell_board :
  forallb (coversCell GRID_WIDTH) (seqZ 0 GRID_WIDTH) = true
  ∧ forallb (coversCell GRID_HEIGHT) (seqZ 0 GRID_HEIGHT) = true.
Proof. split; vm_compute; reflexivity. Qed.

Lemma floorScaled_covers (n x : Z) :
  forallb (coversCell n) (seqZ 0 n) = true → 0 ≤ x < n → ∃ u, floorScaled u n = x.
Proof.
  intros Hall Hx. rewrite forallb_forall in Hall.
  assert (coversCell n x = true) as Hc.
  { apply Hall, list_elem_of_In, elem_of_seqZ. lia. }
  unfold coversCell in Hc. destruct (cellSample n x) as [u|]; [| discriminate].
  exists u. by apply Z.eqb_eq.
Qed.

Lemma generateRandomPosition_covers (p : Position) :
  inGrid p = true → ∃ u v, generateRandomPosition u v = p.
Proof.
  destruct p as [x y]. intros [Hx Hy]%inGrid_true. simpl in Hx, Hy.
  destruct coversCell_board as [Hw Hh].
  destruct (floorScaled_covers GRID_WIDTH x Hw Hx) as [u Hu].
  destruct (floorScaled_covers GRID_HEIGHT y Hh Hy) as [v Hv].
  exists u, v. unfold generateRandomPosition. by rewrite Hu, Hv.
Qed.

(** Induction on a tape two samples at a time, as the loop reads it. *)
Lemma tape_pair_ind (P : list Sample → Prop) :
  P [] → (∀ u, P [u]) → (∀ u v rest, P rest → P (u :: v :: rest)) → ∀ tape, P tape.
Proof.
  intros H0 H1 H2. fix IH 1. intros [|u [|v rest]]; [exact H0 | exact (H1 u) |].
  apply H2, IH.
Qed.

Lemma draws_inGrid (tape : list Sample) (p : Position) : p ∈ draws tape → inGrid p = true.
Proof.
  induction tape as [| u | u v rest IH] using tape_pair_ind; simpl.
  - intros H. by apply elem_of_nil in H.
  - intros H. by apply elem_of_nil in H.
  - intros [-> | H]%elem_of_cons; [apply generateRandomPosition_inGrid | auto].
Qed.

Lemma generateFood_Done (l : list Snake) (foods : list Position) (tape : list Sample)
    (p : Position) :
  generateFood l foods tape = Done p →
  p ∈ draws tape ∧ isPositionOccupied p l foods = false.
Proof.
  induction tape as [| u | u v rest IH] using tape_pair_ind; simpl; try discriminate.
  destruct (isPositionOccupied (generateRandomPosition u v) l foods) eqn:Hocc.
  - intros H. destruct (IH H) as [Hin Hfree]. split; [by apply elem_of_cons; right | done].
  - intros [= <-]. split; [by apply elem_of_cons; left | done].
Qed.

Lemma generateFood_no_TypeError (l : list Snake) (foods : list Position) (tape : list Sample) :
  generateFood l foods tape ≠ TypeError.
Proof.
  induction tape as [| u | u v rest IH] using tape_pair_ind; simpl; try discriminate.
  by destruct (isPositionOccupied _ _ _).
Qed.

Lemma generateFood_returns (l : list Snake) (foods : list Position) (tape : list Sample) :
  (∃ q, q ∈ draws tape ∧ isPositionOccupied q l foods = false) →
  ∃ p, generateFood l foods tape = Done p.
Proof.
  induction tape as [| u | u v rest IH] using tape_pair_ind; simpl.
  - intros (q & Hq & _). by apply elem_of_nil in Hq.
  - intros (q & Hq & _). by apply elem_of_nil in Hq.
  - intros (q & Hq & Hfree).
    destruct (isPositionOccupied (generateRandomPosition u v) l foods) eqn:Hocc; [| eauto].
    apply elem_of_cons in Hq as [-> | Hq]; [congruence | apply IH; eauto].
Qed.

(** ** [some] and the collision scan *)

Lemma someFrom_true {A : Type} (f : A → nat → bool) (k : nat) (l : list A) :
  someFrom f k l = true ↔ ∃ i x, l !! i = Some x ∧ f x (k + i)%nat = true.
Proof.
  revert k. induction l as [|a l IH]; intros k; simpl.
  - split; [discriminate | intros (i & x & H & _); by rewrite lookup_nil in H].
  - rewrite orb_true_iff, IH. split.
    + intros [H | (i & x & Hi & Hf)].
      * exists 0%nat, a. by rewrite Nat.add_0_r.
      * exists (S i), x. by rewrite Nat.add_succ_r.
    + intros ([|i] & x & Hi & Hf); simpl in Hi.
      * left. injection Hi as ->. by rewrite Nat.add_0_r in Hf.
      * right. exists i, x. by rewrite Nat.add_succ_r in Hf.
Qed.

Lemma some_true {A : Type} (f : A → nat → bool) (l : list A) :
  some f l = true ↔ ∃ i x, l !! i = Some x ∧ f x i = true.
Proof. unfold some. by rewrite someFrom_true. Qed.

Lemma hasCollision_true (segments : list Position) :
  hasCollision segments = true
  ↔ ∃ i j p, i ≠ j ∧ segments !! i = Some p ∧ segments !! j = Some p.
Proof.
  unfold hasCollision. rewrite some_true. split.
  - intros (i & [x y] & Hi & H). apply some_true in H as (j & [x' y'] & Hj & H).
    rewrite !andb_true_iff, bool_decide_eq_true, !Z.eqb_eq in H. simpl in H.
    destruct H as [[Hne ->] ->]. eauto 6.
  - intros (i & j & p & Hne & Hi & Hj). exists i, p. split; [done |].
    apply some_true. exists j, p. split; [done |].
    rewrite !andb_true_iff, bool_decide_eq_true, !Z.eqb_eq. done.
Qed.

Lemma hasCollision_false (segments : list Position) :
  hasCollision segments = false ↔ NoDup segments.
Proof.
  rewrite <- not_true_iff_false, hasCollision_true, NoDup_alt. split.
  - intros H i j p Hi Hj. destruct (decide (i = j)) as [|Hne]; [done |].
    exfalso. apply H. eauto 6.
  - intros H (i & j & p & Hne & Hi & Hj). apply Hne. eauto.
Qed.

(** Two snakes at different indices that share a cell make the flattened
    list repeat it. *)
Lemma allSegments_shared (l : list Snake) (i j : nat) (a b : Snake) (p : Position) :
  i ≠ j → l !! i = Some a → l !! j = Some b → p ∈ body a → p ∈ body b →
  ¬ NoDup (allSegments l).
Proof.
  unfold allSegments. revert i j. induction l as [|c l IH]; intros i j Hne Hi Hj Ha Hb Hnd.
  - by rewrite lookup_nil in Hi.
  - simpl in Hnd. apply list.NoDup_app in Hnd as (_ & Hdisj & Hnd).
    destruct i as [|i], j as [|j]; simpl in Hi, Hj.
    + done.
    + injection Hi as ->. apply (Hdisj p Ha). apply list_elem_of_bind.
      exists b. split; [done | by eapply list_elem_of_lookup_2].
    + injection Hj as ->. apply (Hdisj p Hb). apply list_elem_of_bind.
      exists a. split; [done | by eapply list_elem_of_lookup_2].
    + apply (IH i j); auto.
Qed.

(** ** One snake of the movement pass *)

Lemma findIndex_Some (l : list Position) (h : Position) (i : nat) :
  findIndex (fun food => food.1 = h.1 ∧ food.2 = h.2) l = Some i
  ↔ l !! i = Some h ∧ ∀ j, (j < i)%nat → l !! j ≠ Some h.
Proof.
  unfold findIndex. split.
  - intros H. apply fmap_Some in H as ([i' x] & Hfind & Heq). simpl in Heq. subst i'.
    apply list_find_Some in Hfind as (Hi & [H1 H2] & Hmin).
    assert (x = h) as -> by (destruct x, h; simpl in *; congruence).
    split; [done |]. intros j Hj Hl. by apply (Hmin j h).
  - intros [Hi Hmin].
    apply fmap_Some. exists (i, h). split; [| done].
    apply list_find_Some. split_and!; try done.
    intros j [x y] Hj Hlt [H1 H2]. apply (Hmin j Hlt).
    destruct h; simpl in *; subst; exact Hj.
Qed.

Lemma findIndex_None (l : list Position) (h : Position) :
  findIndex (fun food => food.1 = h.1 ∧ food.2 = h.2) l = None ↔ h ∉ l.
Proof.
  unfold findIndex. rewrite fmap_None, list_find_None, list.Forall_forall. split.
  - intros H Hin. by apply (H h Hin).
  - intros H [x y] Hin [H1 H2]. apply H. destruct h; simpl in *; subst; exact Hin.
Qed.

Lemma findIndex_is_Some (l : list Position) (h : Position) :
  h ∈ l → ∃ i, findIndex (fun food => food.1 = h.1 ∧ food.2 = h.2) l = Some i.
Proof.
  intros Hin.
  destruct (findIndex (fun food : Position => food.1 = h.1 ∧ food.2 = h.2) l) as [i|] eqn:Hfind;
    [eauto |].
  by apply findIndex_None in Hfind.
Qed.

(** Case analysis on the [findIndex] of the goal. *)
Ltac case_findIndex Hfind :=
  match goal with
  | |- context [@findIndex ?A ?P ?D ?l] => destruct (@findIndex A P D l) eqn:Hfind
  | H : context [@findIndex ?A ?P ?D ?l] |- _ => destruct (@findIndex A P D l) eqn:Hfind
  end.

(** The callback of the movement pass, read through [newHead]. *)
Lemma moveSnake_unfold (prevFood : list Position) (acc : Pending) (k : nat) (snake : Snake) :
  moveSnake prevFood acc k snake =
  match newHead snake with
  | None => TypeError
  | Some h =>
      if inGrid h then
        match findIndex (fun food => food.1 = h.1 ∧ food.2 = h.2) prevFood with
        | Some foodIndex =>
            Done (withBody snake (h :: body snake),
                  mkPending (newIsRunning acc) (bumpScore k (newScores acc))
                            (delete foodIndex prevFood))
        | None =>
            Done (withBody snake (h :: take (length (body snake) - 1) (body snake)), acc)
        end
      else Done (snake, mkPending false (newScores acc) (newFood acc))
  end.
Proof.
  unfold moveSnake, newHead. destruct (body snake) as [|[x y] tl] eqn:Hb; [done |].
  simpl. unfold inGrid.
  destruct (direction snake); simpl;
    match goal with |- context [negb ?c] => destruct c end; reflexivity.
Qed.

Lemma bumpScore_length (k : nat) (l : list (option Z)) :
  (length l ≤ length (bumpScore k l))%nat.
Proof.
  unfold bumpScore. case_decide.
  - by rewrite length_alter.
  - rewrite length_app. lia.
Qed.

Lemma bumpScore_lookup_ne (k j : nat) (l : list (option Z)) :
  j ≠ k → (j < length l)%nat → bumpScore k l !! j = l !! j.
Proof.
  intros Hne Hlt. unfold bumpScore. case_decide.
  - by apply list_lookup_alter_ne.
  - by apply lookup_app_l.
Qed.

Lemma bumpScore_lookup_eq (k : nat) (l : list (option Z)) :
  (k < length l)%nat → bumpScore k l !! k = fmap (fun n => n + 1) <$> l !! k.
Proof.
  intros Hlt. unfold bumpScore. rewrite decide_True by done. apply list_lookup_alter_eq.
Qed.

Lemma moveSnake_scores (prevFood : list Position) (acc acc' : Pending) (k : nat)
    (snake snake' : Snake) :
  moveSnake prevFood acc k snake = Done (snake', acc') →
  (length (newScores acc) ≤ length (newScores acc'))%nat
  ∧ ∀ j, j ≠ k → (j < length (newScores acc))%nat →
         newScores acc' !! j = newScores acc !! j.
Proof.
  rewrite moveSnake_unfold. destruct (newHead snake) as [h|]; [| discriminate].
  destruct (inGrid h); [let Hfind := fresh "Hfind" in case_findIndex Hfind |]; intros [= <- <-]; simpl.
  - split; [apply bumpScore_length | intros; by apply bumpScore_lookup_ne].
  - done.
  - done.
Qed.

Lemma moveSnake_running (prevFood : list Position) (acc acc' : Pending) (k : nat)
    (snake snake' : Snake) :
  moveSnake prevFood acc k snake = Done (snake', acc') →
  newIsRunning acc = false → newIsRunning acc' = false.
Proof.
  rewrite moveSnake_unfold. destruct (newHead snake) as [h|]; [| discriminate].
  destruct (inGrid h); [let Hfind := fresh "Hfind" in case_findIndex Hfind |]; by intros [= <- <-].
Qed.

(** ** The movement pass *)

Lemma moveSnakes_cons_inv (prevFood : list Position) (acc acc' : Pending) (k : nat)
    (snake : Snake) (rest l' : list Snake) :
  moveSnakes prevFood acc k (snake :: rest) = Done (l', acc') →
  ∃ snake' acc1 rest',
    moveSnake prevFood acc k snake = Done (snake', acc1)
    ∧ moveSnakes prevFood acc1 (S k) rest = Done (rest', acc')
    ∧ l' = snake' :: rest'.
Proof.
  simpl. intros H. bind_inv H. destruct a as [snake' acc1]. bind_inv H.
  destruct a as [rest' acc2]. injection H as <- <-. eauto 7.
Qed.

Lemma moveSnakes_length (prevFood : list Position) (acc acc' : Pending) (k : nat)
    (l l' : list Snake) :
  moveSnakes prevFood acc k l = Done (l', acc') → length l' = length l.
Proof.
  revert acc k l'. induction l as [|snake rest IH]; intros acc k l' H.
  - by injection H as <- <-.
  - apply moveSnakes_cons_inv in H as (snake' & acc1 & rest' & _ & Hrest & ->).
    simpl. f_equal. eauto.
Qed.

Lemma moveSnakes_running (prevFood : list Position) (acc acc' : Pending) (k : nat)
    (l l' : list Snake) :
  moveSnakes prevFood acc k l = Done (l', acc') →
  newIsRunning acc = false → newIsRunning acc' = false.
Proof.
  revert acc k l'. induction l as [|snake rest IH]; intros acc k l' H Hoff.
  - by injection H as <- <-.
  - apply moveSnakes_cons_inv in H as (snake' & acc1 & rest' & Hone & Hrest & ->).
    eapply IH; [done |]. by eapply moveSnake_running.
Qed.

(** Snakes at index [k] and above leave the scores below [k] alone. *)
Lemma moveSnakes_scores_below (prevFood : list Position) (acc acc' : Pending) (k : nat)
    (l l' : list Snake) :
  moveSnakes prevFood acc k l = Done (l', acc') →
  (length (newScores acc) ≤ length (newScores acc'))%nat
  ∧ ∀ j, (j < k)%nat → (j < length (newScores acc))%nat →
         newScores acc' !! j = newScores acc !! j.
Proof.
  revert acc k l'. induction l as [|snake rest IH]; intros acc k l' H.
  - by injection H as <- <-.
  - apply moveSnakes_cons_inv in H as (snake' & acc1 & rest' & Hone & Hrest & ->).
    apply moveSnake_scores in Hone as [Hlen1 Hone].
    apply IH in Hrest as [Hlen2 Hrest]. split; [lia |].
    intros j Hj Hlt. rewrite Hrest by lia. apply Hone; lia.
Qed.

(** The snake at position [i] of the pass: it is moved by the callback,
    from some pending values [acc1] to [acc2]; a stop it causes and the
    score it writes survive the rest of the pass. *)
Lemma moveSnakes_nth (prevFood : list Position) (acc acc' : Pending) (k i : nat)
    (l l' : list Snake) (snake : Snake) :
  moveSnakes prevFood acc k l = Done (l', acc') →
  l !! i = Some snake →
  ∃ acc1 snake' acc2,
    moveSnake prevFood acc1 (k + i) snake = Done (snake', acc2)
    ∧ l' !! i = Some snake'
    ∧ (newIsRunning acc2 = false → newIsRunning acc' = false)
    ∧ ((k + i < length (newScores acc))%nat →
       newScores acc1 !! (k + i)%nat = newScores acc !! (k + i)%nat
       ∧ newScores acc' !! (k + i)%nat = newScores acc2 !! (k + i)%nat).
Proof.
  revert acc k i l'. induction l as [|first rest IH]; intros acc k i l' H Hi.
  - by rewrite lookup_nil in Hi.
  - apply moveSnakes_cons_inv in H as (first' & accA & rest' & Hone & Hrest & ->).
    destruct i as [|i]; simpl in Hi.
    + injection Hi as ->. exists acc, first', accA. rewrite Nat.add_0_r.
      split_and!; try done.
      * intros Hoff. by eapply moveSnakes_running.
      * intros Hlt. split; [done |].
        apply moveSnake_scores in Hone as [Hlen _].
        apply moveSnakes_scores_below in Hrest as [_ Hrest]. apply Hrest; lia.
    + destruct (IH accA (S k) i rest' Hrest Hi) as (acc1 & snake' & acc2 & Hm & Hl & Hr & Hs).
      exists acc1, snake', acc2.
      replace (k + S i)%nat with (S k + i)%nat by lia. split_and!; try done.
      intros Hlt. apply moveSnake_scores in Hone as [Hlen Hone].
      destruct Hs as [Hs1 Hs2]; [lia |]. split; [| done].
      rewrite Hs1. apply Hone; lia.
Qed.

(** What the pass does to the snake at position [i], by the cell [h] it
    moves to. *)
Lemma movement_of_snake (prevFood : list Position) (acc acc' : Pending)
    (l l' : list Snake) (i : nat) (snake : Snake) (h : Position) :
  moveSnakes prevFood acc 0 l = Done (l', acc') →
  l !! i = Some snake →
  newHead snake = Some h →
  ∃ snake',
    l' !! i = Some snake'
    ∧ direction snake' = direction snake
    ∧ (inGrid h = false →
       snake' = snake ∧ newIsRunning acc' = false
       ∧ ((i < length (newScores acc))%nat → newScores acc' !! i = newScores acc !! i))
    ∧ (inGrid h = true → h ∈ prevFood →
       body snake' = h :: body snake
       ∧ ((i < length (newScores acc))%nat →
          newScores acc' !! i = fmap (fun n => n + 1) <$> newScores acc !! i))
    ∧ (inGrid h = true → h ∉ prevFood →
       body snake' = h :: take (length (body snake) - 1) (body snake)
       ∧ ((i < length (newScores acc))%nat → newScores acc' !! i = newScores acc !! i)).
Proof.
  intros Hmove Hi Hhead.
  destruct (moveSnakes_nth _ _ _ _ _ _ _ _ Hmove Hi)
    as (acc1 & snake' & acc2 & Hone & Hl & Hrun & Hsc).
  simpl in Hone, Hsc. exists snake'. rewrite moveSnake_unfold, Hhead in Hone.
  destruct (inGrid h) eqn:Hgrid.
  - case_findIndex Hfind; injection Hone as <- <-; simpl in *.
    + split_and!; try done.
      * intros _ _. split; [done |]. intros Hlt. destruct (Hsc Hlt) as [Hs1 Hs2].
        rewrite Hs2, bumpScore_lookup_eq, Hs1; [done |].
        apply lookup_lt_is_Some. rewrite Hs1. by apply lookup_lt_is_Some.
      * intros _ Hnot. apply findIndex_Some in Hfind as [Hfind _].
        exfalso. apply Hnot. by eapply list_elem_of_lookup_2.
    + split_and!; try done.
      * intros _ Hin. apply findIndex_None in Hfind. done.
      * intros _ _. split; [done |]. intros Hlt. destruct (Hsc Hlt) as [Hs1 Hs2]. congruence.
  - injection Hone as <- <-. simpl in *. split_and!; try done.
    intros _. split_and!; [done | auto |].
    intros Hlt. destruct (Hsc Hlt) as [Hs1 Hs2]. congruence.
Qed.

(** A snake that has a head keeps its length when it drops its last
    segment behind a new head. *)
Lemma slide_length (snake : Snake) (h h' : Position) :
  newHead snake = Some h →
  length (h' :: take (length (body snake) - 1) (body snake)) = length (body snake).
Proof.
  unfold newHead. destruct (body snake) as [|p tl]; [discriminate |].
  intros _. cbn [length]. rewrite length_take. cbn [length]. lia.
Qed.

Lemma elem_of_delete_other {A : Type} (l : list A) (i : nat) (x y : A) :
  x ∈ l → l !! i = Some y → x ≠ y → x ∈ delete i l.
Proof.
  intros Hx Hi Hne. apply list_elem_of_lookup in Hx as [k Hk].
  apply list_elem_of_lookup. destruct (decide (k < i)%nat) as [Hlt|Hge].
  - exists k. by rewrite list_lookup_delete_lt.
  - assert (k ≠ i) by congruence. exists (k - 1)%nat.
    rewrite list_lookup_delete_ge by lia. by replace (S (k - 1)) with k by lia.
Qed.

(** *** The movement pass returns *)

Lemma newHead_is_Some (snake : Snake) : body snake ≠ [] → ∃ h, newHead snake = Some h.
Proof. unfold newHead. destruct (body snake); [done | simpl; eauto]. Qed.

Lemma moveSnake_returns (prevFood : list Position) (acc : Pending) (k : nat) (snake : Snake) :
  body snake ≠ [] → ∃ snake' acc', moveSnake prevFood acc k snake = Done (snake', acc').
Proof.
  intros [h Hh]%newHead_is_Some. rewrite moveSnake_unfold, Hh.
  destruct (inGrid h); [| eauto].
  let Hfind := fresh "Hfind" in case_findIndex Hfind; eauto.
Qed.

Lemma moveSnakes_returns (prevFood : list Position) (acc : Pending) (k : nat)
    (l : list Snake) :
  allHeaded l → ∃ l' acc', moveSnakes prevFood acc k l = Done (l', acc').
Proof.
  revert acc k. induction l as [|snake rest IH]; intros acc k Hheads; simpl; [eauto |].
  destruct (moveSnake_returns prevFood acc k snake) as (snake' & acc1 & ->).
  { apply Hheads. by apply elem_of_cons; left. }
  simpl. destruct (IH acc1 (S k)) as (rest' & acc2 & ->).
  { intros sn Hin. apply Hheads. by apply elem_of_cons; right. }
  simpl. eauto.
Qed.

Lemma moveSnake_headed (prevFood : list Position) (acc acc' : Pending) (k : nat)
    (snake snake' : Snake) :
  moveSnake prevFood acc k snake = Done (snake', acc') → ∃ h, newHead snake = Some h.
Proof.
  rewrite moveSnake_unfold. destruct (newHead snake) as [h|]; [eauto | discriminate].
Qed.

(** A segment of a snake after the pass is a segment it had or the head
    it moved to. *)
Lemma moved_segments (prevFood : list Position) (acc acc' : Pending)
    (l l' : list Snake) (snake' : Snake) (p : Position) :
  moveSnakes prevFood acc 0 l = Done (l', acc') →
  snake' ∈ l' → p ∈ body snake' →
  ∃ snake, snake ∈ l ∧ (p ∈ body snake ∨ newHead snake = Some p).
Proof.
  intros Hmove [i Hi]%list_elem_of_lookup Hp.
  destruct (lookup_lt_is_Some_2 l i) as [snake Hl].
  { rewrite <- (moveSnakes_length _ _ _ _ _ _ Hmove). by eapply lookup_lt_Some. }
  destruct (moveSnakes_nth _ _ _ _ _ _ _ _ Hmove Hl) as (acc1 & sn & acc2 & Hone & _).
  apply moveSnake_headed in Hone as [h Hh].
  destruct (movement_of_snake _ _ _ _ _ _ _ _ Hmove Hl Hh)
    as (snake'' & Hl' & _ & Hexit & Heat & Hslide).
  rewrite Hi in Hl'. injection Hl' as <-.
  exists snake. split; [by eapply list_elem_of_lookup_2 |].
  destruct (inGrid h) eqn:Hgrid.
  - destruct (decide (h ∈ prevFood)) as [Hin|Hnot].
    + destruct (Heat eq_refl Hin) as [Hb _]. rewrite Hb in Hp.
      apply elem_of_cons in Hp as [-> | Hp]; auto.
    + destruct (Hslide eq_refl Hnot) as [Hb _]. rewrite Hb in Hp.
      apply elem_of_cons in Hp as [-> | Hp]; [auto |].
      left. by eapply subseteq_take.
  - destruct (Hexit eq_refl) as (-> & _). auto.
Qed.

Lemma replenish_nonempty (moved : list Snake) (foodList : list Position) (tape : list Sample) :
  foodList ≠ [] → replenish moved foodList tape = Done foodList.
Proof. by destruct foodList. Qed.

(** ** The direction pass *)

Lemma sameBodies_refl (l : list Snake) : sameBodies l l.
Proof. by split. Qed.

Lemma aiDirections_sameBodies (all : list Snake) (foodList : list Position) (k : nat)
    (l l' : list Snake) :
  aiDirections all foodList k l = Done l' → sameBodies l l'.
Proof.
  revert k l'. induction l as [|snake rest IH]; intros k l' H; simpl in H.
  - injection H as <-. apply sameBodies_refl.
  - bind_inv H. bind_inv H. bind_inv H. injection H as <-.
    destruct (IH _ _ Ha1) as [Hlen Hbody]. split; [simpl; by f_equal |].
    intros [|i]; simpl; [done | apply Hbody].
Qed.

Section Store_properties.

Context {PowerUp SnakeEffects : Type}.
Implicit Types prev s : @GameState PowerUp SnakeEffects.

Lemma resolveDirections_sameBodies prev (directed : list Snake) :
  resolveDirections prev = Done directed → sameBodies (snakes prev) directed.
Proof.
  unfold resolveDirections. destruct (gameMode prev).
  - intros H. bind_inv H. bind_inv H. bind_inv H. injection H as <-.
    apply defined_Done_inv in Ha0. split; [apply length_insert |].
    intros i. destruct (decide (i = 1%nat)) as [-> |Hne].
    + rewrite list_lookup_insert_eq by (by eapply lookup_lt_Some). by rewrite Ha0.
    + by rewrite list_lookup_insert_ne.
  - intros [= <-]. apply sameBodies_refl.
  - apply aiDirections_sameBodies.
Qed.

(** The snakes a player steers keep the direction of the previous state:
    all of them in MULTIPLAYER mode, the first one in SINGLE mode. *)
Lemma resolveDirections_human prev (directed : list Snake) :
  resolveDirections prev = Done directed →
  (gameMode prev = MULTIPLAYER → directed = snakes prev)
  ∧ (gameMode prev = SINGLE → directed !! 0%nat = snakes prev !! 0%nat).
Proof.
  unfold resolveDirections. intros H. split; intros Hmode; rewrite Hmode in H.
  - by injection H as <-.
  - bind_inv H. bind_inv H. bind_inv H. injection H as <-.
    by rewrite list_lookup_insert_ne.
Qed.

(** [updateGame] taken apart: the direction pass, the movement pass, the
    replenishment and the collision scan. *)
Lemma updateGame_inv (tape : list Sample) prev s :
  updateGame tape prev = Done s →
  ∃ directed acc,
    resolveDirections prev = Done directed
    ∧ moveSnakes (food prev) (mkPending (isRunning prev) (scores prev) (food prev)) 0 directed
      = Done (snakes s, acc)
    ∧ movementPhase prev = Done (snakes s, acc)
    ∧ replenish (snakes s) (newFood acc) tape = Done (food s)
    ∧ isRunning s = (if hasCollision (allSegments (snakes s)) then false else newIsRunning acc)
    ∧ scores s = newScores acc
    ∧ speed s = speed prev ∧ snakeColors s = snakeColors prev ∧ gameMode s = gameMode prev
    ∧ powerUps s = powerUps prev ∧ snakeEffects s = snakeEffects prev
    ∧ lastPowerUpSpawn s = lastPowerUpSpawn prev.
Proof.
  unfold updateGame. intros H. bind_inv H. destruct a as [moved acc]. bind_inv H.
  injection H as <-. simpl. pose proof Ha as Hphase. unfold movementPhase in Ha.
  bind_inv Ha. exists a0, acc. split_and!; done.
Qed.

Lemma updateGame_stays_stopped (tape : list Sample) prev s :
  updateGame tape prev = Done s → isRunning prev = false → isRunning s = false.
Proof.
  intros H Hoff. apply updateGame_inv in H as (directed & acc & _ & Hmove & _ & _ & Hrun & _).
  rewrite Hrun. destruct (hasCollision _); [done |].
  by apply (moveSnakes_running _ _ _ _ _ _ Hmove).
Qed.

(** [updateGame] returns a state as soon as the snakes that move all have
    a head and the tape draws a cell they leave free. *)
Lemma updateGame_returns (tape : list Sample) prev (directed : list Snake) :
  resolveDirections prev = Done directed →
  allHeaded directed → freeDraw tape directed →
  ∃ s, updateGame tape prev = Done s.
Proof.
  intros Hres Hheads (q & Hq & Hfree).
  destruct (moveSnakes_returns (food prev)
              (mkPending (isRunning prev) (scores prev) (food prev)) 0 directed Hheads)
    as (moved & acc & Hmove).
  unfold updateGame, movementPhase. rewrite Hres. simpl. rewrite Hmove. simpl.
  destruct (newFood acc) as [|p rest]; simpl; [| eauto].
  destruct (generateFood_returns moved [] tape) as [p ->]; [| simpl; eauto].
  exists q. split; [done |]. apply isPositionOccupied_false.
  split; [| by intros ?%elem_of_nil].
  intros snake' Hin Hp.
  destruct (moved_segments _ _ _ _ _ _ _ Hmove Hin Hp) as (snake & Hsn & [Hb | Hh]).
  - by destruct (Hfree snake Hsn) as [Hnot _].
  - by destruct (Hfree snake Hsn) as [_ Hnot].
Qed.

Lemma getNextDirection_returns (snake : Snake) (foodList : list Position)
    (otherSnake : Snake) :
  body snake ≠ [] → foodList ≠ [] → body otherSnake ≠ [] →
  ∃ d, getNextDirection snake foodList otherSnake = Done d.
Proof.
  intros Hb Hf Ho. unfold getNextDirection.
  destruct (body snake) as [|head tl]; [done |].
  destruct foodList as [|first foods]; [done |].
  destruct (body otherSnake) as [|otherHead otl]; [done |]. simpl.
  match goal with |- context [map ?f ?l] => destruct (map f l) end; eauto.
Qed.

(** On a state of the data model (two snakes, each with a head) that has
    food, the direction pass returns in every mode. *)
Lemma resolveDirections_returns prev (a b : Snake) :
  snakes prev = [a; b] → body a ≠ [] → body b ≠ [] → food prev ≠ [] →
  ∃ directed, resolveDirections prev = Done directed ∧ allHeaded directed.
Proof.
  intros Hsn Ha Hb Hf.
  assert (∃ directed, resolveDirections prev = Done directed) as [directed Hres].
  { unfold resolveDirections. rewrite Hsn. destruct (gameMode prev); simpl.
    - destruct (getNextDirection_returns b (food prev) a) as [d ->]; simpl; eauto.
    - eauto.
    - destruct (getNextDirection_returns a (food prev) b) as [d ->]; try done. simpl.
      destruct (getNextDirection_returns b (food prev) a) as [d' ->]; try done.
      simpl. eauto. }
  exists directed. split; [done |].
  apply resolveDirections_sameBodies in Hres as [Hlen Hbodies].
  intros snake [i Hi]%list_elem_of_lookup Hnil.
  specialize (Hbodies i). rewrite Hi, Hsn in Hbodies. simpl in Hbodies.
  destruct i as [|[|i]]; simpl in Hbodies; [| | discriminate];
    injection Hbodies as Hbodies; congruence.
Qed.

(** *** The operations of the store *)

Lemma initialSnakes_free (p : Position) :
  isPositionOccupied p initialSnakes [] = false ↔ p ≠ (5, 5) ∧ p ≠ (34, 24).
Proof.
  unfold isPositionOccupied, initialSnakes. simpl.
  rewrite !orb_false_r, <- not_true_iff_false, orb_true_iff, !sameCell_true.
  change (GRID_WIDTH - 6, GRID_HEIGHT - 6) with (34, 24). split.
  - intros H. split; intros ->; apply H; auto.
  - intros [H1 H2] [H | H]; congruence.
Qed.

Lemma imap_replace_direction (l : list Snake) (i : nat) (snake : Snake) (d : Direction) :
  l !! i = Some snake →
  imap (fun index sn => if decide (index = i) then withDirection sn d else sn) l
  = <[i := withDirection snake d]> l.
Proof.
  intros Hi. apply list_eq. intros j. rewrite list_lookup_imap.
  destruct (decide (j = i)) as [-> |Hne].
  - rewrite list_lookup_insert_eq by (by eapply lookup_lt_Some). by rewrite Hi.
  - rewrite list_lookup_insert_ne by done. by destruct (l !! j).
Qed.

(** An index without a snake: [snake.direction] reads [undefined]. *)
Lemma setSnakeDirection_no_snake prev (snakeIndex : nat) (d : Direction) :
  snakes prev !! snakeIndex = None → setSnakeDirection snakeIndex d prev = TypeError.
Proof. intros H. unfold setSnakeDirection. by rewrite H. Qed.

Lemma withDirection_same (snake : Snake) : withDirection snake (direction snake) = snake.
Proof. by destruct snake. Qed.

Lemma withSnakes_same prev : withSnakes prev (snakes prev) = prev.
Proof. by destruct prev. Qed.

(** C1 (as amended).  The check of the running flag belongs to the timer
    callback of the board, not to [updateGame]: on a stopped state
    [gameLoop] returns the state as it is, whereas [updateGame] performs
    its update all the same; what a stopped state guarantees of that
    update is that it stays stopped and keeps its settings, its mode and
    its reserved fields. *)
Theorem stopped_state_tick (tape : list Sample) prev :
  isRunning prev = false →
  gameLoop tape prev = Done prev
  ∧ ∀ s, updateGame tape prev = Done s →
         isRunning s = false ∧ speed s = speed prev ∧ snakeColors s = snakeColors prev
         ∧ gameMode s = gameMode prev ∧ powerUps s = powerUps prev
         ∧ snakeEffects s = snakeEffects prev
         ∧ lastPowerUpSpawn s = lastPowerUpSpawn prev.
Proof.
  intros Hoff. split; [unfold gameLoop; by rewrite Hoff |].
  intros s H. split; [by eapply updateGame_stays_stopped |].
  apply updateGame_inv in H as (_ & _ & _ & _ & _ & _ & _ & _ & H). exact H.
Qed.

(** C2 (as amended).  [setSnakeDirection] does not read the running
    flag.  For a snake index that exists: the state is returned
    as it is when the direction asked for is the opposite of the snake's
    direction; otherwise only the direction of that snake is replaced,
    bodies, food, scores, running flag and settings being kept.  The
    result equals the previous state exactly when the direction asked for
    is that opposite or the direction the snake already has. *)
Theorem setSnakeDirection_spec prev (snakeIndex : nat) (d : Direction) (snake : Snake) :
  snakes prev !! snakeIndex = Some snake →
  (d = opposites (direction snake) → setSnakeDirection snakeIndex d prev = Done prev)
  ∧ (d ≠ opposites (direction snake) →
     setSnakeDirection snakeIndex d prev
     = Done (withSnakes prev (<[snakeIndex := withDirection snake d]> (snakes prev))))
  ∧ (setSnakeDirection snakeIndex d prev = Done prev
     ↔ d = opposites (direction snake) ∨ d = direction snake).
Proof.
  intros Hi.
  assert (d = opposites (direction snake) → setSnakeDirection snakeIndex d prev = Done prev)
    as Hopp.
  { intros ->. unfold setSnakeDirection. rewrite Hi. simpl. by rewrite decide_True. }
  assert (d ≠ opposites (direction snake) →
          setSnakeDirection snakeIndex d prev
          = Done (withSnakes prev (<[snakeIndex := withDirection snake d]> (snakes prev))))
    as Hother.
  { intros Hne. unfold setSnakeDirection. rewrite Hi. simpl.
    rewrite decide_False by congruence. by rewrite (imap_replace_direction _ _ snake). }
  split_and!; [done | done |]. split.
  - intros H. destruct (decide (d = opposites (direction snake))) as [|Hne]; [by left |].
    right. rewrite (Hother Hne) in H. injection H as H.
    apply (f_equal snakes) in H. simpl in H.
    apply (f_equal (fun l => direction <$> l !! snakeIndex)) in H.
    rewrite list_lookup_insert_eq, Hi in H by (by eapply lookup_lt_Some).
    simpl in H. congruence.
  - intros [Hd | ->]; [auto |].
    destruct (decide (direction snake = opposites (direction snake))) as [Heq|Hne]; [auto |].
    rewrite (Hother Hne), withDirection_same, list_insert_id by done.
    by rewrite withSnakes_same.
Qed.

(** C3 (as amended).  [startGame]: the first snake is [[5,5]] heading
    RIGHT and the second is [[34,24]] (that is [GRID_WIDTH - 6],
    [GRID_HEIGHT - 6]) heading LEFT; there is one food item, on the board
    and on neither snake; the scores are [[0,0]]; the game runs in the
    mode asked for; speed and colours are those of the previous state.
    The call returns such a state as soon as the tape draws a cell off
    both snakes. *)
Theorem startGame_spec (mode : GameMode) (tape : list Sample) prev (q : Position) :
  q ∈ draws tape → q ≠ (5, 5) → q ≠ (34, 24) →
  ∃ s, startGame mode tape prev = Done s
       ∧ snakes s = [mkSnake [(5, 5)] RIGHT; mkSnake [(34, 24)] LEFT]
       ∧ (∃ p, food s = [p] ∧ inGrid p = true ∧ p ≠ (5, 5) ∧ p ≠ (34, 24))
       ∧ scores s = [Some 0; Some 0]
       ∧ isRunning s = true
       ∧ gameMode s = mode
       ∧ speed s = speed prev
       ∧ snakeColors s = snakeColors prev.
Proof.
  intros Hq H1 H2.
  destruct (generateFood_returns initialSnakes [] tape) as [p Hp].
  { exists q. split; [done |]. by apply initialSnakes_free. }
  unfold startGame, createInitialState. rewrite Hp. simpl. eexists. split; [reflexivity |].
  simpl. apply generateFood_Done in Hp as [Hdraw Hfree].
  apply initialSnakes_free in Hfree as [Hp1 Hp2].
  split_and!; try done. exists p. split_and!; try done. by eapply draws_inGrid.
Qed.

(** C4 (as amended).  [setFoodPosition] returns the state as it is when
    the game is not running or when the cell is a segment of a snake or a
    food item; in every other case it appends the cell to the food list
    and changes nothing else.  The grid bounds play no part: a free cell
    outside the board is appended like any other. *)
Theorem setFoodPosition_spec (position : Position) prev :
  (isRunning prev = false → setFoodPosition position prev = prev)
  ∧ ((∃ snake, snake ∈ snakes prev ∧ position ∈ body snake) ∨ position ∈ food prev →
     setFoodPosition position prev = prev)
  ∧ (isRunning prev = true →
     (∀ snake, snake ∈ snakes prev → position ∉ body snake) →
     position ∉ food prev →
     setFoodPosition position prev = withFood prev (food prev ++ [position])).
Proof.
  unfold setFoodPosition. split_and!.
  - by intros ->.
  - intros Hocc. apply isPositionOccupied_true in Hocc. rewrite Hocc.
    by destruct (negb (isRunning prev)).
  - intros -> Hs Hf. simpl.
    by rewrite (proj2 (isPositionOccupied_false position (snakes prev) (food prev))).
Qed.

(** *** One tick *)

(** The part of the movement rule that holds for every snake of every
    tick: a snake that meets no food keeps its length and its score; a
    snake whose new head is on the board and on a food item becomes that
    head followed by its whole former body, and its score goes up by one. *)
Lemma tick_length_and_score (tape : list Sample) prev s (directed : list Snake)
    (i : nat) (snake : Snake) (h : Position) :
  updateGame tape prev = Done s →
  resolveDirections prev = Done directed →
  directed !! i = Some snake →
  newHead snake = Some h →
  (i < length (scores prev))%nat →
  ∃ snake',
    snakes s !! i = Some snake'
    ∧ (h ∉ food prev →
       length (body snake') = length (body snake) ∧ scores s !! i = scores prev !! i)
    ∧ (inGrid h = true → h ∈ food prev →
       body snake' = h :: body snake
       ∧ scores s !! i = fmap (fun n => n + 1) <$> scores prev !! i).
Proof.
  intros Hupd Hres Hi Hhead Hlt.
  apply updateGame_inv in Hupd as (directed' & acc & Hres' & Hmove & _ & _ & _ & Hsc & _).
  rewrite Hres in Hres'. injection Hres' as <-.
  destruct (movement_of_snake _ _ _ _ _ _ _ _ Hmove Hi Hhead)
    as (snake' & Hl & _ & Hexit & Heat & Hslide).
  exists snake'. rewrite Hsc. split_and!; [done | |].
  - intros Hnot. destruct (inGrid h) eqn:Hgrid.
    + destruct (Hslide eq_refl Hnot) as [-> Hs]. split; [by eapply slide_length | auto].
    + destruct (Hexit eq_refl) as (-> & _ & Hs). auto.
  - intros Hgrid Hin. destruct (Heat Hgrid Hin) as [-> Hs]. auto.
Qed.

(** C6.  A snake whose next head (its head shifted one cell along the
    direction it moves in this tick) is off the board stops the game and
    is kept as it was, with the body it had before the tick; every other
    snake whose next head is on the board moves in the same tick: its new
    body is that head followed by its former body, whole if the head is
    on a food item of the previous state and without its last segment
    otherwise.  The tick returns such a state when every snake has a head
    and the tape draws a free cell. *)
Theorem wall_exit_stops_game (tape : list Sample) prev (directed : list Snake)
    (i : nat) (snake : Snake) (h : Position) :
  resolveDirections prev = Done directed →
  directed !! i = Some snake →
  newHead snake = Some h →
  inGrid h = false →
  (∀ s, updateGame tape prev = Done s →
        isRunning s = false
        ∧ snakes s !! i = Some snake
        ∧ body <$> snakes prev !! i = Some (body snake)
        ∧ ∀ j other h',
            j ≠ i → directed !! j = Some other → newHead other = Some h' →
            inGrid h' = true →
            ∃ other',
              snakes s !! j = Some other'
              ∧ direction other' = direction other
              ∧ body other' =
                  h' :: (if decide (h' ∈ food prev) then body other
                         else take (length (body other) - 1) (body other)))
  ∧ (allHeaded directed → freeDraw tape directed → ∃ s, updateGame tape prev = Done s).
Proof.
  intros Hres Hi Hhead Hgrid. split; [| by apply updateGame_returns].
  intros s Hupd.
  apply updateGame_inv in Hupd as (directed' & acc & Hres' & Hmove & _ & _ & Hrun & _).
  rewrite Hres in Hres'. injection Hres' as <-.
  destruct (movement_of_snake _ _ _ _ _ _ _ _ Hmove Hi Hhead)
    as (snake' & Hl & _ & Hexit & _).
  destruct (Hexit Hgrid) as (-> & Hoff & _). split_and!.
  - rewrite Hrun, Hoff. by destruct (hasCollision _).
  - done.
  - apply resolveDirections_sameBodies in Hres as [_ Hbodies].
    by rewrite <- Hbodies, Hi.
  - intros j other h' _ Hj Hhead' Hgrid'.
    destruct (movement_of_snake _ _ _ _ _ _ _ _ Hmove Hj Hhead')
      as (other' & Hl' & Hdir & _ & Heat & Hslide).
    exists other'. split_and!; [done | done |]. case_decide.
    + by apply Heat.
    + by apply Hslide.
Qed.

(** C7.  The snakes of the state after a tick are those the movement pass
    returns.  Whenever two different positions of the list of all their
    segments hold the same cell, the state after the tick is stopped,
    whatever the movement pass decided about the walls.  In particular
    two snakes whose next heads are the same cell leave the game stopped.
    The tick returns such a state when every snake has a head and the
    tape draws a free cell. *)
Theorem collision_stops_game (tape : list Sample) prev (directed : list Snake) :
  resolveDirections prev = Done directed →
  (∀ s, updateGame tape prev = Done s →
        (∃ acc, movementPhase prev = Done (snakes s, acc))
        ∧ ((∃ i j p, i ≠ j ∧ allSegments (snakes s) !! i = Some p
                     ∧ allSegments (snakes s) !! j = Some p) →
           isRunning s = false)
        ∧ (∀ i j a b h,
             i ≠ j → directed !! i = Some a → directed !! j = Some b →
             newHead a = Some h → newHead b = Some h →
             isRunning s = false))
  ∧ (allHeaded directed → freeDraw tape directed → ∃ s, updateGame tape prev = Done s).
Proof.
  intros Hres. split; [| by apply updateGame_returns].
  intros s Hupd.
  apply updateGame_inv in Hupd as (directed' & acc & Hres' & Hmove & Hphase & _ & Hrun & _).
  rewrite Hres in Hres'. injection Hres' as <-.
  assert (hasCollision (allSegments (snakes s)) = true → isRunning s = false) as Hscan.
  { intros Hc. by rewrite Hrun, Hc. }
  split_and!.
  - eauto.
  - intros Hdup. by apply Hscan, hasCollision_true.
  - intros i j a b h Hne Hi Hj Ha Hb.
    destruct (movement_of_snake _ _ _ _ _ _ _ _ Hmove Hi Ha)
      as (a' & Hla & _ & Hexit & Heata & Hslidea).
    destruct (movement_of_snake _ _ _ _ _ _ _ _ Hmove Hj Hb)
      as (b' & Hlb & _ & _ & Heatb & Hslideb).
    destruct (inGrid h) eqn:Hgrid.
    + apply Hscan, not_false_iff_true. rewrite hasCollision_false.
      apply (allSegments_shared _ i j a' b' h); try done.
      * destruct (decide (h ∈ food prev)) as [Hin|Hnot].
        -- destruct (Heata eq_refl Hin) as [-> _]. by apply elem_of_cons; left.
        -- destruct (Hslidea eq_refl Hnot) as [-> _]. by apply elem_of_cons; left.
      * destruct (decide (h ∈ food prev)) as [Hin|Hnot].
        -- destruct (Heatb eq_refl Hin) as [-> _]. by apply elem_of_cons; left.
        -- destruct (Hslideb eq_refl Hnot) as [-> _]. by apply elem_of_cons; left.
    + destruct (Hexit eq_refl) as (_ & Hoff & _).
      rewrite Hrun, Hoff. by destruct (hasCollision _).
Qed.

(** C8.  When the movement pass leaves food, the tick returns with that
    food list.  When it leaves none, a tick that returns has exactly one
    food item, a cell of the board that is no segment of any snake; the
    tick does return once the tape draws a cell off every snake; and as
    soon as the board has a cell off every snake there are values of
    [Math.random()] for which the tick returns, with such a food item.  A
    tick that returns never leaves the food list empty. *)
Theorem food_replenished (tape : list Sample) prev (moved : list Snake) (acc : Pending) :
  movementPhase prev = Done (moved, acc) →
  (newFood acc ≠ [] →
   ∃ s, updateGame tape prev = Done s ∧ snakes s = moved ∧ food s = newFood acc)
  ∧ (newFood acc = [] →
     (∀ s, updateGame tape prev = Done s →
           snakes s = moved
           ∧ ∃ p, food s = [p] ∧ inGrid p = true
                  ∧ ∀ snake, snake ∈ snakes s → p ∉ body snake)
     ∧ ((∃ q, q ∈ draws tape ∧ ∀ snake, snake ∈ moved → q ∉ body snake) →
        ∃ s, updateGame tape prev = Done s)
     ∧ ((∃ q, inGrid q = true ∧ ∀ snake, snake ∈ moved → q ∉ body snake) →
        ∃ tape' s p,
          updateGame tape' prev = Done s
          ∧ snakes s = moved ∧ food s = [p] ∧ inGrid p = true
          ∧ ∀ snake, snake ∈ moved → p ∉ body snake))
  ∧ (∀ s, updateGame tape prev = Done s → food s ≠ []).
Proof.
  intros Hphase.
  assert (∀ tape0 s, newFood acc = [] → updateGame tape0 prev = Done s →
            snakes s = moved
            ∧ ∃ p, food s = [p] ∧ inGrid p = true
                   ∧ ∀ snake, snake ∈ snakes s → p ∉ body snake) as Hspawn.
  { intros tape0 s Hempty Hupd. unfold updateGame in Hupd. rewrite Hphase in Hupd.
    simpl in Hupd. rewrite Hempty in Hupd. simpl in Hupd. bind_inv Hupd. bind_inv Ha.
    injection Ha as <-. injection Hupd as <-. simpl. split; [done |].
    apply generateFood_Done in Ha0 as [Hdraw Hfree].
    apply isPositionOccupied_false in Hfree as [Hfree _].
    exists a0. split_and!; [done | by eapply draws_inGrid | done]. }
  assert (∀ tape0, newFood acc = [] →
            (∃ q, q ∈ draws tape0 ∧ ∀ snake, snake ∈ moved → q ∉ body snake) →
            ∃ s, updateGame tape0 prev = Done s) as Hreturns.
  { intros tape0 Hempty (q & Hq & Hfree).
    destruct (generateFood_returns moved [] tape0) as [p Hp].
    { exists q. split; [done |]. apply isPositionOccupied_false.
      split; [done | by intros ?%elem_of_nil]. }
    unfold updateGame. rewrite Hphase. simpl. rewrite Hempty. simpl. rewrite Hp. simpl.
    eauto. }
  split_and!.
  - intros Hne. unfold updateGame. rewrite Hphase. simpl.
    rewrite replenish_nonempty by done. simpl. eauto.
  - intros Hempty. split_and!.
    + intros s. by apply Hspawn.
    + by apply Hreturns.
    + intros (q & Hq & Hfree).
      destruct (generateRandomPosition_covers q Hq) as (u & v & Huv).
      destruct (Hreturns [u; v] Hempty) as [s Hs].
      { exists q. split; [| done]. simpl. rewrite Huv. by apply elem_of_cons; left. }
      destruct (Hspawn [u; v] s Hempty Hs) as (Hsn & p & Hp & Hg & Hoff).
      exists [u; v], s, p. rewrite Hsn in Hoff. by split_and!.
  - intros s Hupd. unfold updateGame in Hupd. rewrite Hphase in Hupd. simpl in Hupd.
    bind_inv Hupd. injection Hupd as <-. simpl.
    unfold replenish in Ha. destruct (newFood acc) as [|p rest].
    + bind_inv Ha. by injection Ha as <-.
    + by injection Ha as <-.
Qed.

(** C10.  When both snakes of a two-snake state move onto food, on two
    different cells, the movement pass makes both snakes grow by their
    new head and both scores go up by one, and the food list it leaves is
    the previous list without the item of the second snake (the first
    item on its new head): the item the first snake moved onto is still
    in the list.  That list is not empty, so it is the food list after
    the tick. *)
Theorem both_eat_last_removal_wins (tape : list Sample) prev (a b : Snake)
    (ha hb : Position) (x y : Z) :
  resolveDirections prev = Done [a; b] →
  scores prev = [Some x; Some y] →
  Forall (fun p => inGrid p = true) (food prev) →
  newHead a = Some ha →
  newHead b = Some hb →
  ha ∈ food prev →
  hb ∈ food prev →
  ha ≠ hb →
  ∃ ib s,
    food prev !! ib = Some hb
    ∧ (∀ j, (j < ib)%nat → food prev !! j ≠ Some hb)
    ∧ movementPhase prev
      = Done ([withBody a (ha :: body a); withBody b (hb :: body b)],
              mkPending (isRunning prev) [Some (x + 1); Some (y + 1)]
                        (delete ib (food prev)))
    ∧ updateGame tape prev = Done s
    ∧ snakes s = [withBody a (ha :: body a); withBody b (hb :: body b)]
    ∧ scores s = [Some (x + 1); Some (y + 1)]
    ∧ food s = delete ib (food prev)
    ∧ ha ∈ food s.
Proof.
  intros Hres Hsc Hgrid Ha Hb Hina Hinb Hne.
  destruct (findIndex_is_Some _ _ Hina) as [ia Hia].
  destruct (findIndex_is_Some _ _ Hinb) as [ib Hib].
  pose proof (proj1 (findIndex_Some _ _ _) Hib) as [Hlb Hminb].
  assert (inGrid ha = true) as Hga by (by eapply (proj1 (list.Forall_forall _ _) Hgrid)).
  assert (inGrid hb = true) as Hgb by (by eapply (proj1 (list.Forall_forall _ _) Hgrid)).
  assert (movementPhase prev
          = Done ([withBody a (ha :: body a); withBody b (hb :: body b)],
                  mkPending (isRunning prev) [Some (x + 1); Some (y + 1)]
                            (delete ib (food prev)))) as Hphase.
  { unfold movementPhase. rewrite Hres. simpl.
    rewrite !moveSnake_unfold, Ha, Hga, Hia. simpl.
    rewrite !moveSnake_unfold, Hb, Hgb, Hib. simpl. by rewrite Hsc. }
  assert (ha ∈ delete ib (food prev)) as Hkept by (by eapply elem_of_delete_other).
  exists ib.
  eexists. split_and!; [done | done | done | | | | |].
  - unfold updateGame. rewrite Hphase. simpl. rewrite replenish_nonempty; [reflexivity |].
    intros Hnil. rewrite Hnil in Hkept. by apply elem_of_nil in Hkept.
  - done.
  - done.
  - done.
  - done.
Qed.

End Store_properties.

(** ** The greedy heuristic on the scenario of the specification *)

Lemma isSafeMove_true (position : Position) (l : list Snake) :
  isSafeMove position l = true
  ↔ inGrid position = true ∧ ∀ snake, snake ∈ l → position ∉ body snake.
Proof.
  destruct position as [x y]. unfold isSafeMove, inGrid. cbn [fst snd].
  destruct ((x <? 0) || (x >=? GRID_WIDTH) || (y <? 0) || (y >=? GRID_HEIGHT)); simpl.
  - split; [discriminate | by intros [? _]].
  - rewrite negb_true_iff, <- not_true_iff_false, existsb_exists. split.
    + intros H. split; [done |]. intros snake Hin Hb. apply H. exists snake.
      split; [by apply list_elem_of_In |]. apply existsb_exists. exists (x, y).
      split; [by apply list_elem_of_In |]. by rewrite !Z.eqb_refl.
    + intros [_ H] (snake & Hin & Hb). apply existsb_exists in Hb as ([sx sy] & Hseg & Heq).
      apply andb_true_iff in Heq as [->%Z.eqb_eq ->%Z.eqb_eq].
      apply (H snake); by apply list_elem_of_In.
Qed.

(** C9 (as amended).  Head [(10,10)], direction RIGHT, only food
    [(10,5)]: when the cell above the head, [(10,9)], is no segment of
    either snake and is not the cell the other snake's head is about to
    move to, the heuristic answers UP. *)
Theorem greedy_scenario_up (tail : list Position) (otherSnake : Snake) (otherHead : Position) :
  body otherSnake !! 0%nat = Some otherHead →
  (10, 9) ∉ ((10, 10) :: tail) →
  (10, 9) ∉ body otherSnake →
  getNextPosition otherHead (direction otherSnake) ≠ (10, 9) →
  getNextDirection (mkSnake ((10, 10) :: tail) RIGHT) [(10, 5)] otherSnake = Done UP.
Proof.
  intros Hother Hself Hfree Hpred.
  assert (isSafeMove (10, 9) [mkSnake ((10, 10) :: tail) RIGHT; otherSnake] = true) as Hup.
  { apply isSafeMove_true. split; [done |]. intros snake Hin.
    apply elem_of_cons in Hin as [-> | Hin]; [done |].
    apply list_elem_of_singleton in Hin as ->. done. }
  unfold getNextDirection. rewrite Hother.
  cbn [body direction lookup list_lookup defined mbind result_bind opposites directions
       List.filter getNextPosition].
  change (10 - 1) with 9. change (10 + 1) with 11. rewrite Hup.
  change (bool_decide (UP ≠ LEFT)) with true.
  change (bool_decide (DOWN ≠ LEFT)) with true.
  change (bool_decide (LEFT ≠ LEFT)) with false.
  change (bool_decide (RIGHT ≠ LEFT)) with true.
  destruct (getNextPosition otherHead (direction otherSnake)) as [px py].
  assert ((10 =? px) = true → (9 =? py) = true → False) as Hp.
  { intros H1%Z.eqb_eq H2%Z.eqb_eq. subst. done. }
  repeat match goal with
         | |- context [isSafeMove ?p ?l] => destruct (isSafeMove p l)
         end;
    cbn [andb bool_decide decide_rel List.filter fst snd];
    repeat match goal with
           | |- context [Z.eqb ?a ?b] =>
               let E := fresh "E" in destruct (Z.eqb a b) eqn:E
           end;
    cbn [negb orb List.filter]; try reflexivity; exfalso; auto.
Qed.

(** ** Worked instances *)

(** C1, the claim as stated fails: [updateGame] moves the snakes of a
    stopped state. *)
Lemma updateGame_not_guarded :
  ¬ ∀ (tape : list Sample) (prev : @GameState unit unit),
      isRunning prev = false → updateGame tape prev = Done prev.
Proof.
  intros H. specialize (H [] stoppedGame eq_refl). vm_compute in H. discriminate H.
Qed.

(** C1 at [stoppedGame]. *)
Lemma stopped_state_tick_witness :
  gameLoop [] stoppedGame = Done stoppedGame
  ∧ ∀ s, updateGame [] stoppedGame = Done s →
         isRunning s = false ∧ speed s = speed stoppedGame
         ∧ snakeColors s = snakeColors stoppedGame
         ∧ gameMode s = gameMode stoppedGame ∧ powerUps s = powerUps stoppedGame
         ∧ snakeEffects s = snakeEffects stoppedGame
         ∧ lastPowerUpSpawn s = lastPowerUpSpawn stoppedGame.
Proof. apply (stopped_state_tick [] stoppedGame). reflexivity. Defined.

(** C2, the claim as stated fails: on a stopped state the direction of
    the first snake is replaced all the same. *)
Lemma setSnakeDirection_not_guarded :
  ¬ ∀ (prev : @GameState unit unit) (snakeIndex : nat) (d : Direction),
      setSnakeDirection snakeIndex d prev = Done prev
      ↔ (isRunning prev = false
         ∨ snakes prev !! snakeIndex = None
         ∨ ∃ snake, snakes prev !! snakeIndex = Some snake
                    ∧ d = opposites (direction snake)).
Proof.
  intros H. destruct (H stoppedGame 0%nat UP) as [_ H'].
  assert (setSnakeDirection 0 UP stoppedGame = Done stoppedGame) as Hsame by auto.
  vm_compute in Hsame. discriminate Hsame.
Qed.

(** C2 at [runningGame]: the first snake is asked to turn UP. *)
Lemma setSnakeDirection_spec_witness :
  (UP = opposites RIGHT → setSnakeDirection 0 UP runningGame = Done runningGame)
  ∧ (UP ≠ opposites RIGHT →
     setSnakeDirection 0 UP runningGame
     = Done (withSnakes runningGame
               (<[0%nat := withDirection (mkSnake [(5, 5)] RIGHT) UP]> (snakes runningGame))))
  ∧ (setSnakeDirection 0 UP runningGame = Done runningGame
     ↔ UP = opposites RIGHT ∨ UP = RIGHT).
Proof. apply (setSnakeDirection_spec runningGame 0 UP (mkSnake [(5, 5)] RIGHT)). reflexivity. Defined.

(** C3, the claim as stated fails: the second snake starts on row 24,
    not on row 23. *)
Lemma startGame_second_snake_row :
  ¬ ∀ (tape : list Sample) (prev s : @GameState unit unit),
      startGame SINGLE tape prev = Done s →
      snakes s !! 1%nat = Some (mkSnake [(34, 23)] LEFT).
Proof.
  intros H. specialize (H centreTape stoppedGame _ eq_refl). vm_compute in H. discriminate H.
Qed.

(** C3 on [centreTape], which draws the cell [(20, 15)]. *)
Lemma startGame_spec_witness :
  ∃ s, startGame SINGLE centreTape stoppedGame = Done s
       ∧ snakes s = [mkSnake [(5, 5)] RIGHT; mkSnake [(34, 24)] LEFT]
       ∧ (∃ p, food s = [p] ∧ inGrid p = true ∧ p ≠ (5, 5) ∧ p ≠ (34, 24))
       ∧ scores s = [Some 0; Some 0]
       ∧ isRunning s = true
       ∧ gameMode s = SINGLE
       ∧ speed s = speed stoppedGame
       ∧ snakeColors s = snakeColors stoppedGame.
Proof.
  apply (startGame_spec SINGLE centreTape stoppedGame (20, 15)).
  - compute_done.
  - discriminate.
  - discriminate.
Defined.

(** C4, the claim as stated fails: a free cell outside the board is
    appended to the food list. *)
Lemma setFoodPosition_outside_grid :
  ¬ ∀ (position : Position) (prev : @GameState unit unit),
      inGrid position = false → setFoodPosition position prev = prev.
Proof.
  intros H. specialize (H (40, 0) runningGame eq_refl). vm_compute in H. discriminate H.
Qed.

(** C4 at the cell [(40, 0)], off the board, of [runningGame]. *)
Lemma setFoodPosition_spec_witness :
  setFoodPosition (40, 0) runningGame = withFood runningGame [(20, 15); (40, 0)].
Proof.
  destruct (setFoodPosition_spec (40, 0) runningGame) as (_ & _ & H).
  apply H; [reflexivity | | compute_done].
  intros snake Hin. repeat (apply elem_of_cons in Hin as [-> | Hin]; [compute_done |]).
  by apply elem_of_nil in Hin.
Defined.

(** C5, the code at the failing input: both snakes move onto food; both
    grow and score, and the item under the new head of the first snake,
    [(6, 5)], is still in the food list. *)
Theorem both_eat_first_item_stays :
  updateGame [] twoMeals = Done twoMealsAfter
  ∧ newHead (mkSnake [(5, 5)] RIGHT) = Some (6, 5)
  ∧ (6, 5) ∈ food twoMeals
  ∧ (6, 5) ∈ food twoMealsAfter.
Proof. split_and!; [reflexivity | reflexivity | compute_done | compute_done]. Qed.

(** What the tick makes of [atWall] and of [headOn]. *)
Example atWall_tick : updateGame centreTape atWall = Done atWallAfter.
Proof. reflexivity. Qed.

Example headOn_tick : updateGame [] headOn = Done headOnAfter.
Proof. reflexivity. Qed.

(** C6 at [atWall]: the first snake is stopped by the right wall and the
    second one eats in the same tick. *)
Lemma wall_exit_stops_game_witness :
  (∀ s, updateGame centreTape atWall = Done s →
        isRunning s = false
        ∧ snakes s !! 0%nat = Some (mkSnake [(39, 5); (38, 5)] RIGHT)
        ∧ body <$> snakes atWall !! 0%nat = Some [(39, 5); (38, 5)]
        ∧ ∀ j other h',
            j ≠ 0%nat → snakes atWall !! j = Some other → newHead other = Some h' →
            inGrid h' = true →
            ∃ other',
              snakes s !! j = Some other'
              ∧ direction other' = direction other
              ∧ body other' =
                  h' :: (if decide (h' ∈ food atWall) then body other
                         else take (length (body other) - 1) (body other)))
  ∧ (allHeaded (snakes atWall) → freeDraw centreTape (snakes atWall) →
     ∃ s, updateGame centreTape atWall = Done s).
Proof.
  apply (wall_exit_stops_game centreTape atWall (snakes atWall) 0
           (mkSnake [(39, 5); (38, 5)] RIGHT) (40, 5)); reflexivity.
Defined.

(** C7 at [headOn]: both heads move to [(6, 5)]. *)
Lemma collision_stops_game_witness :
  (∀ s, updateGame centreTape headOn = Done s →
        (∃ acc, movementPhase headOn = Done (snakes s, acc))
        ∧ ((∃ i j p, i ≠ j ∧ allSegments (snakes s) !! i = Some p
                     ∧ allSegments (snakes s) !! j = Some p) →
           isRunning s = false)
        ∧ (∀ i j a b h,
             i ≠ j → snakes headOn !! i = Some a → snakes headOn !! j = Some b →
             newHead a = Some h → newHead b = Some h →
             isRunning s = false))
  ∧ (allHeaded (snakes headOn) → freeDraw centreTape (snakes headOn) →
     ∃ s, updateGame centreTape headOn = Done s).
Proof. apply (collision_stops_game centreTape headOn (snakes headOn)). reflexivity. Defined.

(** C8 at [oneMeal]: the only food item is eaten, [centreTape] draws the
    cell [(20, 15)], which is off both snakes, and the tick returns with
    one food item. *)
Lemma food_replenished_witness :
  ∃ s, updateGame centreTape oneMeal = Done s
       ∧ snakes s = [mkSnake [(6, 5); (5, 5)] RIGHT; mkSnake [(33, 24)] LEFT]
       ∧ (∃ p, food s = [p] ∧ inGrid p = true
               ∧ ∀ snake, snake ∈ snakes s → p ∉ body snake)
       ∧ food s ≠ [].
Proof.
  destruct (food_replenished centreTape oneMeal
              [mkSnake [(6, 5); (5, 5)] RIGHT; mkSnake [(33, 24)] LEFT]
              (mkPending true [Some 1; Some 0] []) eq_refl)
    as (_ & Hempty & Hnonempty).
  destruct (Hempty eq_refl) as (Hspawn & Hreturns & _).
  destruct Hreturns as [s Hs].
  { exists (20, 15). split; [compute_done |]. intros snake Hin.
    repeat (apply elem_of_cons in Hin as [-> | Hin]; [compute_done |]).
    by apply elem_of_nil in Hin. }
  exists s. destruct (Hspawn s Hs) as [Hsn Hp].
  split_and!; [done | done | done | by apply Hnonempty].
Defined.

(** C9, the claim as stated fails: no segment of either snake is next to
    the head, and the heuristic answers DOWN, because the other snake is
    about to move its head to [(10, 9)]. *)
Lemma greedy_scenario_head_on :
  ¬ ∀ (tail : list Position) (otherSnake : Snake),
      (∀ p, p ∈ [(10, 9); (10, 11); (9, 10); (11, 10)] →
            (p ∉ (10, 10) :: tail) ∧ (p ∉ body otherSnake)) →
      getNextDirection (mkSnake ((10, 10) :: tail) RIGHT) [(10, 5)] otherSnake = Done UP.
Proof.
  intros H.
  assert (getNextDirection (mkSnake [(10, 10)] RIGHT) [(10, 5)] (mkSnake [(9, 9)] RIGHT)
          = Done UP) as Hup.
  { apply (H [] (mkSnake [(9, 9)] RIGHT)). intros p Hp.
    repeat (apply elem_of_cons in Hp as [-> | Hp]; [split; compute_done |]).
    by apply elem_of_nil in Hp. }
  vm_compute in Hup. discriminate Hup.
Qed.

(** C9 with the other snake far away, at [(34, 24)]. *)
Lemma greedy_scenario_up_witness :
  getNextDirection (mkSnake [(10, 10)] RIGHT) [(10, 5)] (mkSnake [(34, 24)] LEFT) = Done UP.
Proof.
  apply (greedy_scenario_up [] (mkSnake [(34, 24)] LEFT) (34, 24));
    [reflexivity | compute_done | compute_done | discriminate].
Defined.

(** C10 at [twoMeals]. *)
Lemma both_eat_last_removal_wins_witness :
  ∃ ib s,
    food twoMeals !! ib = Some (33, 24)
    ∧ (∀ j, (j < ib)%nat → food twoMeals !! j ≠ Some (33, 24))
    ∧ movementPhase twoMeals
      = Done ([withBody (mkSnake [(5, 5)] RIGHT) [(6, 5); (5, 5)];
               withBody (mkSnake [(34, 24)] LEFT) [(33, 24); (34, 24)]],
              mkPending (isRunning twoMeals) [Some (0 + 1); Some (0 + 1)]
                        (delete ib (food twoMeals)))
    ∧ updateGame [] twoMeals = Done s
    ∧ snakes s = [withBody (mkSnake [(5, 5)] RIGHT) [(6, 5); (5, 5)];
                  withBody (mkSnake [(34, 24)] LEFT) [(33, 24); (34, 24)]]
    ∧ scores s = [Some (0 + 1); Some (0 + 1)]
    ∧ food s = delete ib (food twoMeals)
    ∧ (6, 5) ∈ food s.
Proof.
  apply (both_eat_last_removal_wins [] twoMeals (mkSnake [(5, 5)] RIGHT)
           (mkSnake [(34, 24)] LEFT) (6, 5) (33, 24) 0 0);
    [reflexivity | reflexivity | repeat constructor | reflexivity | reflexivity
    | compute_done | compute_done | discriminate].
Defined.

(** * Further properties of the code *)

(** ** Drawing cells *)

(** X1.  [generateRandomPosition] answers a cell of the board whatever
    binary64 number of [[0,1)] [Math.random()] returns, the rounding of
    the two products included, and every cell of the board is the answer
    to some pair of such numbers. *)
Theorem random_position_covers_board :
  (∀ u v, inGrid (generateRandomPosition u v) = true)
  ∧ (∀ p, inGrid p = true → ∃ u v, generateRandomPosition u v = p).
Proof.
  split.
  - intros u v. apply inGrid_true. unfold generateRandomPosition. simpl.
    split; apply floorScaled_range; reflexivity.
  - intros p Hp. by apply generateRandomPosition_covers.
Qed.

(** X2.  [generateFood] never throws, and it returns the cell [p] exactly when
    [p] is the first cell drawn that is neither a segment of a snake nor
    a food item of the list given. *)
Theorem generateFood_first_free (l : list Snake) (foods : list Position)
    (tape : list Sample) (p : Position) :
  generateFood l foods tape ≠ TypeError
  ∧ (generateFood l foods tape = Done p
     ↔ ∃ i, draws tape !! i = Some p
            ∧ isPositionOccupied p l foods = false
            ∧ ∀ j q, (j < i)%nat → draws tape !! j = Some q →
                     isPositionOccupied q l foods = true).
Proof.
  split; [apply generateFood_no_TypeError |].
  induction tape as [| u | u v rest IH] using tape_pair_ind; simpl.
  - split; [discriminate | intros (i & Hi & _); by rewrite lookup_nil in Hi].
  - split; [discriminate | intros (i & Hi & _); by rewrite lookup_nil in Hi].
  - destruct (isPositionOccupied (generateRandomPosition u v) l foods) eqn:Hocc.
    + rewrite IH. split.
      * intros (i & Hi & Hfree & Hbefore). exists (S i). split_and!; [done | done |].
        intros [|j] q Hj Hq; simpl in Hq; [by simplify_eq |].
        apply (Hbefore j); [lia | done].
      * intros ([|i] & Hi & Hfree & Hbefore); simpl in Hi.
        -- simplify_eq. congruence.
        -- exists i. split_and!; [done | done |].
           intros j q Hj Hq. apply (Hbefore (S j)); [lia | done].
    + split.
      * intros [= <-]. exists 0%nat. split_and!; [done | done | intros; lia].
      * intros ([|i] & Hi & Hfree & Hbefore); simpl in Hi; [by simplify_eq |].
        specialize (Hbefore 0%nat (generateRandomPosition u v)).
        rewrite Hbefore in Hocc; [discriminate | lia | done].
Qed.

(** ** Cells and moves *)

(** X3.  [isSafeMove] is the bounds test of the board together with the
    occupancy test of [isPositionOccupied] on the snakes alone. *)
Theorem isSafeMove_free_on_board (position : Position) (l : list Snake) :
  isSafeMove position l = inGrid position && negb (isPositionOccupied position l []).
Proof.
  apply eq_true_iff_eq.
  rewrite isSafeMove_true, andb_true_iff, negb_true_iff, isPositionOccupied_false.
  split.
  - intros [Hg Hfree]. split_and!; [done | done | by intros ?%elem_of_nil].
  - intros (Hg & Hfree & _). done.
Qed.

(** X4.  A move goes to one of the four neighbours of the cell, a different
    one for each direction, and the move in the opposite direction comes
    back.  No direction is its own opposite. *)
Theorem moves_and_opposites (p : Position) (d d' : Direction) :
  manhattan p (getNextPosition p d) = 1
  ∧ (getNextPosition p d = getNextPosition p d' → d = d')
  ∧ getNextPosition (getNextPosition p d) (opposites d) = p
  ∧ opposites (opposites d) = d
  ∧ opposites d ≠ d.
Proof.
  destruct p as [x y]. split_and!.
  - unfold manhattan. destruct d; simpl; lia.
  - destruct d, d'; simpl; intros H; try reflexivity; injection H; intros; lia.
  - destruct d; simpl; f_equal; lia.
  - by destruct d.
  - by destruct d.
Qed.

(** X5.  The scan of [updateGame] finds a collision exactly when the list of
    segments has a repeated cell. *)
Theorem hasCollision_iff_duplicate (segments : list Position) :
  hasCollision segments = true ↔ ¬ NoDup segments.
Proof.
  rewrite <- hasCollision_false. by destruct (hasCollision segments).
Qed.

(** ** The greedy heuristic *)

Lemma closerFood_choice (head prev curr : Position) :
  (closerFood head prev curr = prev ∨ closerFood head prev curr = curr)
  ∧ manhattan (closerFood head prev curr) head ≤ manhattan prev head
  ∧ manhattan (closerFood head prev curr) head ≤ manhattan curr head.
Proof.
  unfold closerFood, manhattan. simpl.
  destruct (Z.ltb_spec (Z.abs (curr.1 - head.1) + Z.abs (curr.2 - head.2))
                       (Z.abs (prev.1 - head.1) + Z.abs (prev.2 - head.2)));
    split_and!; auto; lia.
Qed.

(** The first [reduce]: the target is one of the food items, and none is
    closer to the head. *)
Lemma targetFood_nearest (head first : Position) (foodList : list Position) :
  let target := foldl (closerFood head) first foodList in
  target ∈ first :: foodList
  ∧ manhattan target head ≤ manhattan first head
  ∧ ∀ f, f ∈ foodList → manhattan target head ≤ manhattan f head.
Proof.
  revert first. induction foodList as [|curr rest IH]; intros first; simpl.
  - split_and!; [by apply elem_of_cons; left | lia | by intros f ?%elem_of_nil].
  - destruct (IH (closerFood head first curr)) as (Hin & Hle & Hall).
    destruct (closerFood_choice head first curr) as (Hch & H1 & H2).
    split_and!.
    + apply elem_of_cons in Hin as [Heq | Hin].
      * rewrite Heq. destruct Hch as [-> | ->].
        -- by apply elem_of_cons; left.
        -- apply elem_of_cons; right. by apply elem_of_cons; left.
      * apply elem_of_cons; right. by apply elem_of_cons; right.
    + lia.
    + intros f [-> | Hf]%elem_of_cons; [lia | by apply Hall].
Qed.

(** The last [reduce]: the entry kept is one of the entries, and none has
    a higher score. *)
Lemma betterScore_best (best : Direction * Z) (rest : list (Direction * Z)) :
  let kept := foldl betterScore best rest in
  kept ∈ best :: rest ∧ ∀ c, c ∈ best :: rest → c.2 ≤ kept.2.
Proof.
  revert best. induction rest as [|current rest IH]; intros best; simpl.
  - split; [by apply elem_of_cons; left |].
    intros c [-> | Hc]%elem_of_cons; [lia | by apply elem_of_nil in Hc].
  - destruct (IH (betterScore best current)) as [Hin Hmax].
    assert ((betterScore best current = best ∨ betterScore best current = current)
            ∧ best.2 ≤ (betterScore best current).2
            ∧ current.2 ≤ (betterScore best current).2) as (Hch & H1 & H2).
    { unfold betterScore. destruct (Z.gtb_spec current.2 best.2); split_and!; auto; lia. }
    split.
    + apply elem_of_cons in Hin as [Heq | Hin].
      * rewrite Heq. destruct Hch as [-> | ->].
        -- by apply elem_of_cons; left.
        -- apply elem_of_cons; right. by apply elem_of_cons; left.
      * apply elem_of_cons; right. by apply elem_of_cons; right.
    + intros c [-> | [-> | Hc]%elem_of_cons]%elem_of_cons.
      * specialize (Hmax (betterScore best current)).
        etrans; [exact H1 |]. apply Hmax. by apply elem_of_cons; left.
      * etrans; [exact H2 |]. apply Hmax. by apply elem_of_cons; left.
      * apply Hmax. by apply elem_of_cons; right.
Qed.

Lemma scoreOf_spec (head targetFood : Position) (dir : Direction) :
  scoreOf head targetFood dir = (dir, - manhattan (getNextPosition head dir) targetFood).
Proof.
  unfold scoreOf, manhattan. destruct (getNextPosition head dir), targetFood. reflexivity.
Qed.

(** [getNextDirection] on a snake with a head, some food and another
    snake with a head: either no candidate is left and the direction is
    kept, or the answer is a candidate and no candidate ends closer to the
    target. *)
Lemma getNextDirection_choice (snake otherSnake : Snake) (foodList : list Position)
    (head first otherHead : Position) :
  body snake !! 0%nat = Some head →
  foodList !! 0%nat = Some first →
  body otherSnake !! 0%nat = Some otherHead →
  let target := foldl (closerFood head) first foodList in
  let final :=
    finalDirections snake otherSnake head (getNextPosition otherHead (direction otherSnake)) in
  ∃ d, getNextDirection snake foodList otherSnake = Done d
       ∧ ((final = [] ∧ d = direction snake)
          ∨ (d ∈ final
             ∧ ∀ d', d' ∈ final →
                     manhattan (getNextPosition head d) target
                     ≤ manhattan (getNextPosition head d') target)).
Proof.
  intros Hh Hf Ho target final. unfold getNextDirection. rewrite Hh, Hf, Ho.
  cbn [defined mbind result_bind].
  change (List.filter _ (List.filter _ directions))
    with (filteredDirections snake otherSnake head
            (getNextPosition otherHead (direction otherSnake))).
  change (List.filter _ directions) with (validDirections snake otherSnake head).
  change (match filteredDirections snake otherSnake head
                  (getNextPosition otherHead (direction otherSnake)) with
          | [] => validDirections snake otherSnake head
          | _ :: _ => filteredDirections snake otherSnake head
                        (getNextPosition otherHead (direction otherSnake))
          end) with final.
  fold target. destruct final as [|d0 rest] eqn:Hfinal; cbn [map]; [eauto |].
  eexists. split; [reflexivity |]. right.
  destruct (betterScore_best (scoreOf head target d0) (map (scoreOf head target) rest))
    as [Hin Hmax].
  set (kept := foldl betterScore (scoreOf head target d0) (map (scoreOf head target) rest))
    in *.
  change (scoreOf head target d0 :: map (scoreOf head target) rest)
    with (map (scoreOf head target) (d0 :: rest)) in Hin, Hmax.
  apply list_elem_of_fmap in Hin as (d & Hkept & Hd).
  rewrite Hkept, scoreOf_spec. simpl. split; [done |].
  intros d' Hd'. specialize (Hmax (scoreOf head target d')).
  rewrite Hkept, !scoreOf_spec in Hmax. simpl in Hmax.
  assert (- manhattan (getNextPosition head d') target
          ≤ - manhattan (getNextPosition head d) target); [| lia].
  apply Hmax. rewrite <- scoreOf_spec.
  change (scoreOf head target d' ∈ scoreOf head target <$> d0 :: rest).
  apply list_elem_of_fmap. eauto.
Qed.

Lemma validDirections_spec (snake otherSnake : Snake) (head : Position) (d : Direction) :
  d ∈ validDirections snake otherSnake head
  ↔ d ≠ opposites (direction snake)
    ∧ isSafeMove (getNextPosition head d) [snake; otherSnake] = true.
Proof.
  unfold validDirections. rewrite list_elem_of_In, filter_In, andb_true_iff,
    bool_decide_eq_true.
  split; [by intros [_ H] |]. intros H. split; [| done].
  apply list_elem_of_In. unfold directions. destruct d; repeat constructor.
Qed.

Lemma filteredDirections_spec (snake otherSnake : Snake) (head predicted : Position)
    (d : Direction) :
  d ∈ filteredDirections snake otherSnake head predicted
  ↔ d ∈ validDirections snake otherSnake head ∧ getNextPosition head d ≠ predicted.
Proof.
  unfold filteredDirections. rewrite list_elem_of_In, filter_In, <- list_elem_of_In.
  apply and_iff_compat_l. destruct (getNextPosition head d) as [cx cy], predicted as [px py].
  simpl. rewrite orb_true_iff, !negb_true_iff, !Z.eqb_neq. split.
  - intros [H | H] [= -> ->]; done.
  - intros H. destruct (decide (cx = px)) as [-> |]; [right | by left].
    intros ->. done.
Qed.

(** The candidates kept: the safe directions off the predicted head when
    there is one, every safe direction otherwise. *)
Lemma finalDirections_spec (snake otherSnake : Snake) (head predicted : Position)
    (d : Direction) :
  d ∈ finalDirections snake otherSnake head predicted
  ↔ d ∈ validDirections snake otherSnake head
    ∧ (getNextPosition head d ≠ predicted
       ∨ ∀ d', d' ∈ validDirections snake otherSnake head →
               getNextPosition head d' = predicted).
Proof.
  unfold finalDirections.
  destruct (filteredDirections snake otherSnake head predicted) as [|d0 rest] eqn:Hf.
  - split.
    + intros Hd. split; [done |]. right. intros d' Hd'.
      destruct (decide (getNextPosition head d' = predicted)) as [|Hne]; [done |].
      assert (d' ∈ filteredDirections snake otherSnake head predicted) as Hin
        by (by apply filteredDirections_spec).
      rewrite Hf in Hin. by apply elem_of_nil in Hin.
    + by intros [Hd _].
  - rewrite <- Hf. rewrite filteredDirections_spec. split.
    + intros [Hd Hne]. auto.
    + intros [Hd [Hne | Hall]]; [done |].
      assert (d0 ∈ filteredDirections snake otherSnake head predicted) as Hin
        by (rewrite Hf; by apply elem_of_cons; left).
      apply filteredDirections_spec in Hin as [Hd0 Hne0]. by specialize (Hall d0 Hd0).
Qed.

Lemma getNextDirection_Done_inv (snake otherSnake : Snake) (foodList : list Position)
    (d : Direction) :
  getNextDirection snake foodList otherSnake = Done d →
  ∃ head first otherHead,
    body snake !! 0%nat = Some head
    ∧ foodList !! 0%nat = Some first
    ∧ body otherSnake !! 0%nat = Some otherHead
    ∧ let target := foldl (closerFood head) first foodList in
      let final :=
        finalDirections snake otherSnake head
          (getNextPosition otherHead (direction otherSnake)) in
      (final = [] ∧ d = direction snake)
      ∨ (d ∈ final
         ∧ ∀ d', d' ∈ final →
                 manhattan (getNextPosition head d) target
                 ≤ manhattan (getNextPosition head d') target).
Proof.
  intros H.
  destruct (body snake !! 0%nat) as [head|] eqn:Hh;
    [| unfold getNextDirection in H; by rewrite Hh in H].
  destruct (foodList !! 0%nat) as [first|] eqn:Hf;
    [| unfold getNextDirection in H; by rewrite Hh, Hf in H].
  destruct (body otherSnake !! 0%nat) as [otherHead|] eqn:Ho;
    [| unfold getNextDirection in H; by rewrite Hh, Hf, Ho in H].
  destruct (getNextDirection_choice snake otherSnake foodList head first otherHead Hh Hf Ho)
    as (d' & Hd' & Hcases).
  rewrite H in Hd'. injection Hd' as <-. exists head, first, otherHead. done.
Qed.

(** X6.  [getNextDirection] throws exactly when the snake has no segment, the
    food list is empty or the other snake has no segment, and its only
    other outcome is a direction. *)
Theorem getNextDirection_throws_iff (snake otherSnake : Snake) (foodList : list Position) :
  (getNextDirection snake foodList otherSnake = TypeError
   ↔ body snake = [] ∨ foodList = [] ∨ body otherSnake = [])
  ∧ getNextDirection snake foodList otherSnake ≠ Starved.
Proof.
  destruct (body snake) as [|head tl] eqn:Hb.
  { unfold getNextDirection. rewrite Hb. simpl. split; [split; auto | discriminate]. }
  destruct foodList as [|first foods].
  { unfold getNextDirection. rewrite Hb. simpl. split; [split; auto | discriminate]. }
  destruct (body otherSnake) as [|otherHead otl] eqn:Ho.
  { unfold getNextDirection. rewrite Hb, Ho. simpl. split; [split; auto | discriminate]. }
  destruct (getNextDirection_choice snake otherSnake (first :: foods) head first otherHead)
    as (d & -> & _); [by rewrite Hb | done | by rewrite Ho |].
  split; [| discriminate]. split; [discriminate |]. intros [H | [H | H]]; discriminate.
Qed.

(** X7.  The heuristic never answers the reverse of the snake's direction. *)
Theorem getNextDirection_never_reverses (snake otherSnake : Snake)
    (foodList : list Position) (d : Direction) :
  getNextDirection snake foodList otherSnake = Done d →
  d ≠ opposites (direction snake).
Proof.
  intros (head & first & otherHead & _ & _ & _ & [[_ ->] | [Hd _]])%getNextDirection_Done_inv.
  - intros H. by destruct (direction snake).
  - apply finalDirections_spec in Hd as [Hd _].
    by apply validDirections_spec in Hd as [Hne _].
Qed.

(** X8.  The heuristic answers a safe move (on the board and on no segment of
    either snake) whenever one of the three moves it may make is safe;
    when none is, it keeps the snake's direction. *)
Theorem getNextDirection_safe_when_possible (snake otherSnake : Snake)
    (foodList : list Position) (d : Direction) (head : Position) :
  getNextDirection snake foodList otherSnake = Done d →
  body snake !! 0%nat = Some head →
  isSafeMove (getNextPosition head d) [snake; otherSnake] = true
  ∨ (d = direction snake
     ∧ ∀ d', d' ≠ opposites (direction snake) →
             isSafeMove (getNextPosition head d') [snake; otherSnake] = false).
Proof.
  intros (head' & first & otherHead & Hh & _ & _ & Hcases)%getNextDirection_Done_inv Hhead.
  rewrite Hhead in Hh. injection Hh as <-. destruct Hcases as [[Hnil ->] | [Hd _]].
  - right. split; [done |]. intros d' Hd'. apply not_true_iff_false. intros Hsafe.
    assert (d' ∈ validDirections snake otherSnake head) as Hv
      by (by apply validDirections_spec).
    assert (d' ∈ finalDirections snake otherSnake head
                   (getNextPosition otherHead (direction otherSnake))) as Hin.
    { unfold finalDirections. destruct (filteredDirections _ _ _ _) eqn:Hf; [done |].
      unfold finalDirections in Hnil. by rewrite Hf in Hnil. }
    rewrite Hnil in Hin. by apply elem_of_nil in Hin.
  - left. apply finalDirections_spec in Hd as [Hd _].
    by apply validDirections_spec in Hd as [_ Hsafe].
Qed.

(** X9.  The heuristic keeps off the cell the other snake's head is about to
    move to, whenever a safe move that it may make leads elsewhere. *)
Theorem getNextDirection_avoids_predicted_head (snake otherSnake : Snake)
    (foodList : list Position) (d d' : Direction) (head otherHead : Position) :
  getNextDirection snake foodList otherSnake = Done d →
  body snake !! 0%nat = Some head →
  body otherSnake !! 0%nat = Some otherHead →
  d' ≠ opposites (direction snake) →
  isSafeMove (getNextPosition head d') [snake; otherSnake] = true →
  getNextPosition head d' ≠ getNextPosition otherHead (direction otherSnake) →
  getNextPosition head d ≠ getNextPosition otherHead (direction otherSnake)
  ∧ isSafeMove (getNextPosition head d) [snake; otherSnake] = true.
Proof.
  intros (head' & first & otherHead' & Hh & _ & Ho & Hcases)%getNextDirection_Done_inv
    Hhead Hother Hd' Hsafe Hoff.
  rewrite Hhead in Hh. injection Hh as <-. rewrite Hother in Ho. injection Ho as <-.
  assert (d' ∈ validDirections snake otherSnake head) as Hv
    by (by apply validDirections_spec).
  assert (d' ∈ finalDirections snake otherSnake head
                 (getNextPosition otherHead (direction otherSnake))) as Hin
    by (apply finalDirections_spec; auto).
  destruct Hcases as [[Hnil _] | [Hd _]].
  - rewrite Hnil in Hin. by apply elem_of_nil in Hin.
  - apply finalDirections_spec in Hd as [Hd [Hne | Hall]].
    + split; [done |]. by apply validDirections_spec in Hd as [_ Hsafe'].
    + by specialize (Hall d' Hv).
Qed.

(** X10.  The heuristic is greedy: it aims at a food item nearest to the head,
    and among the safe moves it may make off the other snake's predicted
    head none ends closer to that item than its answer. *)
Theorem getNextDirection_greedy (snake otherSnake : Snake) (foodList : list Position)
    (d : Direction) (head otherHead : Position) :
  getNextDirection snake foodList otherSnake = Done d →
  body snake !! 0%nat = Some head →
  body otherSnake !! 0%nat = Some otherHead →
  ∃ target,
    target ∈ foodList
    ∧ (∀ f, f ∈ foodList → manhattan target head ≤ manhattan f head)
    ∧ ∀ d', d' ≠ opposites (direction snake) →
            isSafeMove (getNextPosition head d') [snake; otherSnake] = true →
            getNextPosition head d' ≠ getNextPosition otherHead (direction otherSnake) →
            manhattan (getNextPosition head d) target
            ≤ manhattan (getNextPosition head d') target.
Proof.
  intros (head' & first & otherHead' & Hh & Hf & Ho & Hcases)%getNextDirection_Done_inv
    Hhead Hother.
  rewrite Hhead in Hh. injection Hh as <-. rewrite Hother in Ho. injection Ho as <-.
  destruct (targetFood_nearest head first foodList) as (Hin & _ & Hnear).
  exists (foldl (closerFood head) first foodList). split_and!.
  - apply elem_of_cons in Hin as [-> | Hin]; [by eapply list_elem_of_lookup_2 | done].
  - done.
  - intros d' Hd' Hsafe Hoff.
    assert (d' ∈ finalDirections snake otherSnake head
                   (getNextPosition otherHead (direction otherSnake))) as Hfin.
    { apply finalDirections_spec. split; [by apply validDirections_spec | auto]. }
    destruct Hcases as [[Hnil _] | [_ Hmin]].
    + rewrite Hnil in Hfin. by apply elem_of_nil in Hfin.
    + by apply Hmin.
Qed.

(** ** The movement pass, continued *)

(** A segment of a snake after the pass is a segment it had, or the head
    it moved to, which is then on the board. *)
Lemma moved_segments_on_board (prevFood : list Position) (acc acc' : Pending)
    (l l' : list Snake) (snake' : Snake) (p : Position) :
  moveSnakes prevFood acc 0 l = Done (l', acc') →
  snake' ∈ l' → p ∈ body snake' →
  ∃ snake, snake ∈ l ∧ (p ∈ body snake ∨ (newHead snake = Some p ∧ inGrid p = true)).
Proof.
  intros Hmove [i Hi]%list_elem_of_lookup Hp.
  destruct (lookup_lt_is_Some_2 l i) as [snake Hl].
  { rewrite <- (moveSnakes_length _ _ _ _ _ _ Hmove). by eapply lookup_lt_Some. }
  destruct (moveSnakes_nth _ _ _ _ _ _ _ _ Hmove Hl) as (acc1 & sn & acc2 & Hone & _).
  apply moveSnake_headed in Hone as [h Hh].
  destruct (movement_of_snake _ _ _ _ _ _ _ _ Hmove Hl Hh)
    as (snake'' & Hl' & _ & Hexit & Heat & Hslide).
  rewrite Hi in Hl'. injection Hl' as <-.
  exists snake. split; [by eapply list_elem_of_lookup_2 |].
  destruct (inGrid h) eqn:Hgrid.
  - destruct (decide (h ∈ prevFood)) as [Hin|Hnot].
    + destruct (Heat eq_refl Hin) as [Hb _]. rewrite Hb in Hp.
      apply elem_of_cons in Hp as [-> | Hp]; auto.
    + destruct (Hslide eq_refl Hnot) as [Hb _]. rewrite Hb in Hp.
      apply elem_of_cons in Hp as [-> | Hp]; [auto |].
      left. by eapply subseteq_take.
  - destruct (Hexit eq_refl) as (-> & _). auto.
Qed.

(** The food list the pass leaves is the list it started from or the
    previous list without one item. *)
Lemma moveSnakes_food (prevFood : list Position) (acc acc' : Pending) (k : nat)
    (l l' : list Snake) :
  moveSnakes prevFood acc k l = Done (l', acc') →
  newFood acc' = newFood acc ∨ ∃ i, newFood acc' = delete i prevFood.
Proof.
  revert acc k l'. induction l as [|snake rest IH]; intros acc k l' H.
  - injection H as <- <-. by left.
  - apply moveSnakes_cons_inv in H as (snake' & acc1 & rest' & Hone & Hrest & ->).
    destruct (IH _ _ _ Hrest) as [Heq | Hdel]; [| by right].
    rewrite Heq. rewrite moveSnake_unfold in Hone.
    destruct (newHead snake) as [h|]; [| discriminate].
    destruct (inGrid h).
    + let Hfind := fresh "Hfind" in case_findIndex Hfind;
        injection Hone as <- <-; simpl; eauto.
    + injection Hone as <- <-. by left.
Qed.

(** The pass neither lengthens nor shortens a score list that has a slot
    for every snake. *)
Lemma moveSnakes_scores_length (prevFood : list Position) (acc acc' : Pending) (k : nat)
    (l l' : list Snake) :
  moveSnakes prevFood acc k l = Done (l', acc') →
  (k + length l ≤ length (newScores acc))%nat →
  length (newScores acc') = length (newScores acc).
Proof.
  revert acc k l'. induction l as [|snake rest IH]; intros acc k l' H Hlen.
  - by injection H as <- <-.
  - apply moveSnakes_cons_inv in H as (snake' & acc1 & rest' & Hone & Hrest & ->).
    simpl in Hlen.
    assert (length (newScores acc1) = length (newScores acc)) as Hone'.
    { rewrite moveSnake_unfold in Hone. destruct (newHead snake) as [h|]; [| discriminate].
      destruct (inGrid h).
      - let Hfind := fresh "Hfind" in case_findIndex Hfind;
          injection Hone as <- <-; simpl; [| done].
        unfold bumpScore. rewrite decide_True by lia. apply length_alter.
      - by injection Hone as <- <-. }
    rewrite <- Hone'. apply (IH _ _ _ Hrest). lia.
Qed.

Lemma allSegments_Forall (P : Position → Prop) (l : list Snake) :
  Forall P (allSegments l) ↔ ∀ snake p, snake ∈ l → p ∈ body snake → P p.
Proof.
  unfold allSegments. rewrite list.Forall_forall. split.
  - intros H snake p Hs Hp. apply H, list_elem_of_bind. eauto.
  - intros H p (snake & Hp & Hs)%list_elem_of_bind. eauto.
Qed.

Lemma sameBodies_allSegments (l l' : list Snake) :
  sameBodies l l' → allSegments l' = allSegments l.
Proof.
  unfold allSegments. intros [Hlen Hbodies]. revert l' Hlen Hbodies.
  induction l as [|a l IH]; intros [|a' l'] Hlen Hbodies; simpl in *; try done.
  f_equal.
  - specialize (Hbodies 0%nat). simpl in Hbodies. congruence.
  - apply IH; [lia |]. intros i. apply (Hbodies (S i)).
Qed.

(** Every snake the pass returns has a segment. *)
Lemma moved_allHeaded (prevFood : list Position) (acc acc' : Pending) (l l' : list Snake) :
  moveSnakes prevFood acc 0 l = Done (l', acc') → allHeaded l'.
Proof.
  intros Hmove snake' [i Hi]%list_elem_of_lookup.
  destruct (lookup_lt_is_Some_2 l i) as [snake Hl].
  { rewrite <- (moveSnakes_length _ _ _ _ _ _ Hmove). by eapply lookup_lt_Some. }
  destruct (moveSnakes_nth _ _ _ _ _ _ _ _ Hmove Hl) as (acc1 & sn & acc2 & Hone & _).
  apply moveSnake_headed in Hone as [h Hh].
  destruct (movement_of_snake _ _ _ _ _ _ _ _ Hmove Hl Hh)
    as (snake'' & Hl' & _ & Hexit & Heat & Hslide).
  rewrite Hi in Hl'. injection Hl' as <-.
  destruct (inGrid h).
  - destruct (decide (h ∈ prevFood)) as [Hin|Hnot].
    + destruct (Heat eq_refl Hin) as [-> _]. done.
    + destruct (Hslide eq_refl Hnot) as [-> _]. done.
  - destruct (Hexit eq_refl) as (-> & _). unfold newHead in Hh. by destruct (body snake).
Qed.

(** A score of the pass is the score of before or one more. *)
Lemma moved_score (prevFood : list Position) (acc acc' : Pending) (l l' : list Snake)
    (i : nat) (snake : Snake) :
  moveSnakes prevFood acc 0 l = Done (l', acc') →
  l !! i = Some snake →
  (i < length (newScores acc))%nat →
  newScores acc' !! i = newScores acc !! i
  ∨ newScores acc' !! i = fmap (fun n => n + 1) <$> newScores acc !! i.
Proof.
  intros Hmove Hi Hlt.
  destruct (moveSnakes_nth _ _ _ _ _ _ _ _ Hmove Hi) as (acc1 & sn & acc2 & Hone & _).
  apply moveSnake_headed in Hone as [h Hh].
  destruct (movement_of_snake _ _ _ _ _ _ _ _ Hmove Hi Hh)
    as (snake' & _ & _ & Hexit & Heat & Hslide).
  destruct (inGrid h).
  - destruct (decide (h ∈ prevFood)) as [Hin|Hnot].
    + destruct (Heat eq_refl Hin) as [_ Hs]. auto.
    + destruct (Hslide eq_refl Hnot) as [_ Hs]. auto.
  - destruct (Hexit eq_refl) as (_ & _ & Hs). auto.
Qed.

Section More_store_properties.

Context {PowerUp SnakeEffects : Type}.
Implicit Types prev s : @GameState PowerUp SnakeEffects.

(** ** Placing food and turning snakes *)

(** X11.  Placing food on the same cell twice is placing it once. *)
Theorem setFoodPosition_idempotent (position : Position) prev :
  setFoodPosition position (setFoodPosition position prev)
  = setFoodPosition position prev.
Proof.
  unfold setFoodPosition. destruct (isRunning prev) eqn:Hrun; simpl; [| by rewrite Hrun].
  destruct (isPositionOccupied position (snakes prev) (food prev)) eqn:Hocc.
  - by rewrite Hrun, Hocc.
  - simpl. rewrite Hrun. simpl.
    assert (isPositionOccupied position (snakes prev) (food prev ++ [position]) = true)
      as ->; [| done].
    apply isPositionOccupied_true. right. apply elem_of_app. right.
    by apply list_elem_of_singleton.
Qed.

(** X12.  [setFoodPosition] keeps the food it finds, in its order, and keeps
    food apart: when the food items are on different cells and on no
    snake, so they are afterwards. *)
Theorem setFoodPosition_keeps_food_apart (position : Position) prev :
  NoDup (food prev) →
  (∀ f snake, f ∈ food prev → snake ∈ snakes prev → f ∉ body snake) →
  food prev `prefix_of` food (setFoodPosition position prev)
  ∧ snakes (setFoodPosition position prev) = snakes prev
  ∧ NoDup (food (setFoodPosition position prev))
  ∧ ∀ f snake, f ∈ food (setFoodPosition position prev) → snake ∈ snakes prev →
               f ∉ body snake.
Proof.
  intros Hnd Hapart. unfold setFoodPosition.
  destruct (negb (isRunning prev)); [by split_and! |].
  destruct (isPositionOccupied position (snakes prev) (food prev)) eqn:Hocc;
    [by split_and! |].
  apply isPositionOccupied_false in Hocc as [Hsn Hfd]. simpl. split_and!.
  - by apply prefix_app_r.
  - done.
  - apply list.NoDup_app. split_and!; [done | | apply NoDup_singleton].
    intros f Hf ->%list_elem_of_singleton. done.
  - intros f snake [Hf | ->%list_elem_of_singleton]%elem_of_app Hs; [eauto | by apply Hsn].
Qed.

(** What a call of [setSnakeDirection] that returns leaves alone. *)
Lemma setSnakeDirection_frame (snakeIndex : nat) (d : Direction) prev s :
  setSnakeDirection snakeIndex d prev = Done s →
  sameBodies (snakes prev) (snakes s)
  ∧ (∀ j, j ≠ snakeIndex → snakes s !! j = snakes prev !! j)
  ∧ isRunning s = isRunning prev ∧ food s = food prev ∧ scores s = scores prev
  ∧ speed s = speed prev ∧ snakeColors s = snakeColors prev ∧ gameMode s = gameMode prev
  ∧ powerUps s = powerUps prev ∧ snakeEffects s = snakeEffects prev
  ∧ lastPowerUpSpawn s = lastPowerUpSpawn prev.
Proof.
  unfold setSnakeDirection. intros H. bind_inv H. apply defined_Done_inv in Ha.
  case_decide.
  - injection H as <-. split_and!; first [done | apply sameBodies_refl].
  - injection H as <-. simpl. rewrite (imap_replace_direction _ _ a) by done.
    split_and!; try done.
    + split; [apply length_insert |]. intros i.
      destruct (decide (i = snakeIndex)) as [-> |Hne].
      * rewrite list_lookup_insert_eq by (by eapply lookup_lt_Some). by rewrite Ha.
      * by rewrite list_lookup_insert_ne.
    + intros j Hj. by rewrite list_lookup_insert_ne.
Qed.

(** X13.  [setSnakeDirection] throws exactly when there is no snake at the
    index; a call that returns changes nothing but directions, and only
    that of the snake at the index. *)
Theorem setSnakeDirection_throws_iff (snakeIndex : nat) (d : Direction) prev :
  (setSnakeDirection snakeIndex d prev = TypeError ↔ snakes prev !! snakeIndex = None)
  ∧ setSnakeDirection snakeIndex d prev ≠ Starved
  ∧ ∀ s, setSnakeDirection snakeIndex d prev = Done s →
         sameBodies (snakes prev) (snakes s)
         ∧ (∀ j, j ≠ snakeIndex → snakes s !! j = snakes prev !! j)
         ∧ isRunning s = isRunning prev ∧ food s = food prev ∧ scores s = scores prev.
Proof.
  split_and!.
  - unfold setSnakeDirection. destruct (snakes prev !! snakeIndex) as [snake|]; simpl.
    + case_decide; split; discriminate.
    + done.
  - unfold setSnakeDirection. destruct (snakes prev !! snakeIndex) as [snake|]; simpl.
    + case_decide; discriminate.
    + discriminate.
  - intros s H. apply setSnakeDirection_frame in H as (H1 & H2 & H3 & H4 & H5 & _).
    by split_and!.
Qed.

(** X14.  The guard against reversing looks at the direction last asked for,
    not at the direction last moved in: a turn to the side followed by a
    turn to the reverse of the first direction, both before the next
    tick, are both accepted and leave the snake reversed. *)
Theorem two_turns_reverse (snakeIndex : nat) (d : Direction) (snake : Snake) prev :
  snakes prev !! snakeIndex = Some snake →
  d ≠ direction snake →
  d ≠ opposites (direction snake) →
  setSnakeDirection snakeIndex (opposites (direction snake)) prev = Done prev
  ∧ (setSnakeDirection snakeIndex d prev
       ≫= setSnakeDirection snakeIndex (opposites (direction snake)))
    = Done (withSnakes prev
              (<[snakeIndex := withDirection snake (opposites (direction snake))]>
                 (snakes prev))).
Proof.
  intros Hi Hne Hnopp. split.
  - unfold setSnakeDirection. rewrite Hi. simpl. by rewrite decide_True.
  - unfold setSnakeDirection at 2. rewrite Hi. simpl.
    rewrite decide_False by congruence. simpl.
    rewrite (imap_replace_direction _ _ snake) by done.
    unfold setSnakeDirection. simpl.
    rewrite list_lookup_insert_eq by (by eapply lookup_lt_Some). simpl.
    rewrite decide_False.
    + rewrite (imap_replace_direction _ _ (withDirection snake d))
        by (apply list_lookup_insert_eq; by eapply lookup_lt_Some).
      by rewrite list_insert_insert_eq.
    + intros Heq. apply Hne. destruct d, (direction snake); simpl in Heq; congruence.
Qed.

(** ** Settings *)

(** X15.  The settings play no part in a tick: changing them before the tick
    or after it gives the same state. *)
Theorem updateSettings_commutes_with_tick (newSpeed : option Z)
    (newColors : option (string * string)) (tape : list Sample) prev :
  updateGame tape (updateSettings newSpeed newColors prev)
  = (s ← updateGame tape prev; Done (updateSettings newSpeed newColors s)).
Proof.
  unfold updateGame.
  change (movementPhase (updateSettings newSpeed newColors prev)) with (movementPhase prev).
  destruct (movementPhase prev) as [[moved acc]| |]; simpl; [| done | done].
  by destruct (replenish moved (newFood acc) tape).
Qed.

(** ** Invariants of a tick *)

(** X16.  A tick that returns was given snakes that all have a head; it keeps
    their number, leaves each of them a head, and in MULTIPLAYER mode it
    keeps their directions. *)
Theorem tick_keeps_snakes (tape : list Sample) prev s :
  updateGame tape prev = Done s →
  allHeaded (snakes prev)
  ∧ length (snakes s) = length (snakes prev)
  ∧ allHeaded (snakes s)
  ∧ (gameMode prev = MULTIPLAYER →
     ∀ i, direction <$> snakes s !! i = direction <$> snakes prev !! i).
Proof.
  intros Hupd.
  apply updateGame_inv in Hupd as (directed & acc & Hres & Hmove & _).
  pose proof (resolveDirections_sameBodies _ _ Hres) as [Hlen Hbodies].
  pose proof (moveSnakes_length _ _ _ _ _ _ Hmove) as Hlen'.
  assert (∀ i snake, directed !! i = Some snake →
            ∃ h snake', newHead snake = Some h ∧ snakes s !! i = Some snake'
                        ∧ direction snake' = direction snake ∧ body snake' ≠ [])
    as Hmoved.
  { intros i snake Hi.
    destruct (moveSnakes_nth _ _ _ _ _ _ _ _ Hmove Hi) as (acc1 & sn & acc2 & Hone & _).
    apply moveSnake_headed in Hone as [h Hh].
    destruct (movement_of_snake _ _ _ _ _ _ _ _ Hmove Hi Hh)
      as (snake' & Hl & Hdir & Hexit & Heat & Hslide).
    exists h, snake'. split_and!; try done.
    destruct (inGrid h).
    - destruct (decide (h ∈ food prev)) as [Hin|Hnot].
      + destruct (Heat eq_refl Hin) as [-> _]. done.
      + destruct (Hslide eq_refl Hnot) as [-> _]. done.
    - destruct (Hexit eq_refl) as (-> & _). unfold newHead in Hh.
      by destruct (body snake). }
  split_and!.
  - intros snake [i Hi]%list_elem_of_lookup.
    destruct (lookup_lt_is_Some_2 directed i) as [snake' Hi'].
    { rewrite Hlen. by eapply lookup_lt_Some. }
    destruct (Hmoved i snake' Hi') as (h & _ & Hh & _).
    specialize (Hbodies i). rewrite Hi, Hi' in Hbodies. injection Hbodies as Hb.
    unfold newHead in Hh. rewrite Hb in Hh. by destruct (body snake).
  - lia.
  - intros snake' [i Hi]%list_elem_of_lookup.
    destruct (lookup_lt_is_Some_2 directed i) as [snake Hi'].
    { rewrite <- Hlen'. by eapply lookup_lt_Some. }
    destruct (Hmoved i snake Hi') as (h & snake'' & _ & Hl & _ & Hne). congruence.
  - intros Hmode i.
    destruct (resolveDirections_human _ _ Hres) as [Hsame _]. rewrite Hsame in * by done.
    destruct (snakes prev !! i) as [snake|] eqn:Hi.
    + destruct (Hmoved i snake Hi) as (h & snake' & _ & -> & Hdir & _). simpl. by f_equal.
    + apply lookup_ge_None in Hi. rewrite lookup_ge_None_2; [done | lia].
Qed.

(** X17.  A tick never takes a snake off the board: when every segment is on
    the board before the tick, every segment is after it. *)
Theorem tick_keeps_snakes_on_board (tape : list Sample) prev s :
  updateGame tape prev = Done s →
  Forall (fun p => inGrid p = true) (allSegments (snakes prev)) →
  Forall (fun p => inGrid p = true) (allSegments (snakes s)).
Proof.
  intros Hupd Hboard.
  apply updateGame_inv in Hupd as (directed & acc & Hres & Hmove & _).
  apply resolveDirections_sameBodies, sameBodies_allSegments in Hres.
  rewrite <- Hres in Hboard. rewrite allSegments_Forall in *.
  intros snake' p Hs Hp.
  destruct (moved_segments_on_board _ _ _ _ _ _ _ Hmove Hs Hp)
    as (snake & Hsn & [Hb | [_ Hg]]); eauto.
Qed.

Lemma updateGame_food_origin (tape : list Sample) prev s :
  updateGame tape prev = Done s →
  ∀ f, f ∈ food s →
       f ∈ food prev
       ∨ (food s = [f] ∧ inGrid f = true ∧ ∀ snake, snake ∈ snakes s → f ∉ body snake).
Proof.
  intros Hupd.
  apply updateGame_inv in Hupd as (directed & acc & _ & Hmove & _ & Hrep & _).
  assert (∀ f, f ∈ newFood acc → f ∈ food prev) as Hsub.
  { intros f Hf. destruct (moveSnakes_food _ _ _ _ _ _ Hmove) as [Heq | [i Heq]];
      rewrite Heq in Hf; [done | by eapply list_elem_of_delete_inv]. }
  intros f Hf. unfold replenish in Hrep. destruct (newFood acc) as [|p rest] eqn:Hnew.
  - bind_inv Hrep. injection Hrep as Hrep. rewrite <- Hrep in Hf |- *.
    apply list_elem_of_singleton in Hf as ->. right.
    apply generateFood_Done in Ha as [Hdraw Hfree].
    apply isPositionOccupied_false in Hfree as [Hfree _].
    split_and!; [done | by eapply draws_inGrid | done].
  - injection Hrep as Hrep. left. apply Hsub. by rewrite Hrep.
Qed.

(** X18.  The food after a tick is food of before the tick, or the one cell the
    tick spawned, which is on the board and on no snake.  Food that was
    on the board stays on the board. *)
Theorem tick_keeps_food_on_board (tape : list Sample) prev s :
  updateGame tape prev = Done s →
  (∀ f, f ∈ food s →
        f ∈ food prev
        ∨ (food s = [f] ∧ inGrid f = true ∧ ∀ snake, snake ∈ snakes s → f ∉ body snake))
  ∧ (Forall (fun p => inGrid p = true) (food prev) →
     Forall (fun p => inGrid p = true) (food s)).
Proof.
  intros Hupd. pose proof (updateGame_food_origin _ _ _ Hupd) as Hfood.
  split; [done |]. rewrite !list.Forall_forall. intros Hboard f Hf.
  destruct (Hfood f Hf) as [Hold | (_ & Hg & _)]; auto.
Qed.

(** X19.  A snake grows exactly when it scores: after a tick each snake has
    either its length and its score of before, or one segment and one
    point more. *)
Theorem tick_grows_with_score (tape : list Sample) prev s (i : nat) (snake : Snake) :
  updateGame tape prev = Done s →
  snakes prev !! i = Some snake →
  (i < length (scores prev))%nat →
  ∃ snake',
    snakes s !! i = Some snake'
    ∧ ((length (body snake') = length (body snake)
        ∧ scores s !! i = scores prev !! i)
       ∨ (length (body snake') = S (length (body snake))
          ∧ scores s !! i = fmap (fun n => n + 1) <$> scores prev !! i)).
Proof.
  intros Hupd Hi Hlt.
  apply updateGame_inv in Hupd as (directed & acc & Hres & Hmove & _ & _ & _ & Hsc & _).
  apply resolveDirections_sameBodies in Hres as [Hlen Hbodies].
  destruct (lookup_lt_is_Some_2 directed i) as [moving Hi'].
  { rewrite Hlen. by eapply lookup_lt_Some. }
  specialize (Hbodies i). rewrite Hi, Hi' in Hbodies. injection Hbodies as Hb.
  destruct (moveSnakes_nth _ _ _ _ _ _ _ _ Hmove Hi') as (acc1 & sn & acc2 & Hone & _).
  pose proof Hone as [h Hh]%moveSnake_headed.
  destruct (movement_of_snake _ _ _ _ _ _ _ _ Hmove Hi' Hh)
    as (snake' & Hl & _ & Hexit & Heat & Hslide).
  exists snake'. rewrite Hsc, <- Hb. split; [done |].
  destruct (inGrid h).
  - destruct (decide (h ∈ food prev)) as [Hin|Hnot].
    + destruct (Heat eq_refl Hin) as [-> Hs]. right. simpl. auto.
    + destruct (Hslide eq_refl Hnot) as [-> Hs]. left.
      split; [by eapply slide_length | auto].
  - destruct (Hexit eq_refl) as (-> & _ & Hs). left. auto.
Qed.

(** X20.  A tick leaves the game running only if it was running, every snake
    moved to a cell of the board, and no two segments of the snakes share
    a cell afterwards. *)
Theorem running_after_tick (tape : list Sample) prev s (directed : list Snake) :
  updateGame tape prev = Done s →
  resolveDirections prev = Done directed →
  isRunning s = true →
  isRunning prev = true
  ∧ NoDup (allSegments (snakes s))
  ∧ ∀ i snake, directed !! i = Some snake →
      ∃ h snake', newHead snake = Some h ∧ inGrid h = true
                  ∧ snakes s !! i = Some snake' ∧ body snake' !! 0%nat = Some h.
Proof.
  intros Hupd Hres Hrun.
  pose proof (updateGame_stays_stopped _ _ _ Hupd) as Hstop.
  apply updateGame_inv in Hupd as (directed' & acc & Hres' & Hmove & _ & _ & Hrun' & _).
  rewrite Hres in Hres'. injection Hres' as <-.
  rewrite Hrun in Hrun'.
  destruct (hasCollision (allSegments (snakes s))) eqn:Hcol; [discriminate |].
  split_and!.
  - destruct (isRunning prev); [done |]. rewrite Hstop in Hrun; done.
  - by apply hasCollision_false.
  - intros i snake Hi.
    destruct (moveSnakes_nth _ _ _ _ _ _ _ _ Hmove Hi) as (acc1 & sn & acc2 & Hone & _).
    pose proof Hone as [h Hh]%moveSnake_headed.
    destruct (movement_of_snake _ _ _ _ _ _ _ _ Hmove Hi Hh)
      as (snake' & Hl & _ & Hexit & Heat & Hslide).
    exists h, snake'. destruct (inGrid h).
    + split_and!; try done. destruct (decide (h ∈ food prev)) as [Hin|Hnot].
      * destruct (Heat eq_refl Hin) as [-> _]. done.
      * destruct (Hslide eq_refl Hnot) as [-> _]. done.
    + destruct (Hexit eq_refl) as (_ & Hoff & _). congruence.
Qed.

(** ** Sound states *)

Lemma sound_frame prev s :
  sound prev → sameBodies (snakes prev) (snakes s) →
  food s = food prev → scores s = scores prev → sound s.
Proof.
  intros ((a & b & Hsn & Ha & Hb) & Hseg & Hf & Hfg & Hsc) Hsame Hfood Hscores.
  unfold sound. rewrite (sameBodies_allSegments _ _ Hsame), Hfood, Hscores.
  split_and!; try done.
  destruct Hsame as [Hlen Hbodies]. rewrite Hsn in Hlen, Hbodies.
  destruct (snakes s) as [|a' [|b' [|c l]]]; try discriminate Hlen.
  exists a', b'. split; [done |].
  pose proof (Hbodies 0%nat) as H0. pose proof (Hbodies 1%nat) as H1.
  simpl in H0, H1. split; congruence.
Qed.

Lemma replenish_Done_nonempty (moved : list Snake) (foodList foodList' : list Position)
    (tape : list Sample) :
  replenish moved foodList tape = Done foodList' → foodList' ≠ [].
Proof.
  unfold replenish. destruct foodList as [|p rest].
  - intros H. bind_inv H. by injection H as <-.
  - by intros [= <-].
Qed.

Lemma updateGame_sound (tape : list Sample) prev s :
  sound prev → updateGame tape prev = Done s → sound s.
Proof.
  intros ((a & b & Hsn & Ha & Hb) & Hseg & Hf & Hfg & (x & y & Hsc & Hx & Hy)) Hupd.
  pose proof (updateGame_food_origin _ _ _ Hupd) as Hfood.
  apply updateGame_inv in Hupd
    as (directed & acc & Hres & Hmove & _ & Hrep & _ & Hscores & _).
  pose proof (resolveDirections_sameBodies _ _ Hres) as Hsame.
  pose proof (moveSnakes_length _ _ _ _ _ _ Hmove) as Hlen.
  pose proof (moved_allHeaded _ _ _ _ _ Hmove) as Hheads.
  destruct Hsame as [Hlen' Hbodies]. rewrite Hsn in Hlen'. simpl in Hlen'.
  unfold sound. split_and!.
  - destruct (snakes s) as [|a' [|b' [|c l]]] eqn:Hs; simpl in Hlen; try lia.
    exists a', b'. split; [done |]. split; apply Hheads.
    + by apply elem_of_cons; left.
    + apply elem_of_cons; right. by apply elem_of_cons; left.
  - rewrite <- (sameBodies_allSegments (snakes prev) directed) in Hseg
      by (split; [by rewrite Hsn | done]).
    rewrite allSegments_Forall in *. intros snake' p Hs Hp.
    destruct (moved_segments_on_board _ _ _ _ _ _ _ Hmove Hs Hp)
      as (snake & Hin & [Hbd | [_ Hg]]); eauto.
  - by eapply replenish_Done_nonempty.
  - rewrite list.Forall_forall in *. intros f Hin.
    destruct (Hfood f Hin) as [Hold | (_ & Hg & _)]; auto.
  - rewrite Hscores.
    assert (length (newScores acc) = 2%nat) as Hl2.
    { rewrite (moveSnakes_scores_length _ _ _ _ _ _ Hmove); simpl; rewrite Hsc; simpl; lia. }
    destruct (lookup_lt_is_Some_2 directed 0) as [s0 H0]; [lia |].
    destruct (lookup_lt_is_Some_2 directed 1) as [s1 H1]; [lia |].
    pose proof (moved_score _ _ _ _ _ 0 s0 Hmove H0) as Hs0.
    pose proof (moved_score _ _ _ _ _ 1 s1 Hmove H1) as Hs1.
    simpl in Hs0, Hs1. rewrite Hsc in Hs0, Hs1. simpl in Hs0, Hs1.
    destruct (newScores acc) as [|u [|v [|w l]]]; try discriminate Hl2.
    simpl in Hs0, Hs1.
    destruct Hs0 as [Hs0 | Hs0]; [lia | |]; destruct Hs1 as [Hs1 | Hs1]; try lia;
      injection Hs0 as ->; injection Hs1 as ->; eexists _, _; split_and!;
      try reflexivity; lia.
Qed.

Lemma updateGame_no_TypeError (tape : list Sample) prev :
  sound prev → updateGame tape prev ≠ TypeError.
Proof.
  intros ((a & b & Hsn & Ha & Hb) & _ & Hf & _).
  destruct (resolveDirections_returns prev a b Hsn Ha Hb Hf) as (directed & Hres & Hheads).
  destruct (moveSnakes_returns (food prev)
              (mkPending (isRunning prev) (scores prev) (food prev)) 0 directed Hheads)
    as (moved & acc & Hmove).
  unfold updateGame, movementPhase. rewrite Hres. simpl. rewrite Hmove. simpl.
  destruct (newFood acc) as [|p rest]; simpl; [| discriminate].
  pose proof (generateFood_no_TypeError moved [] tape) as Hgen.
  by destruct (generateFood moved [] tape).
Qed.

Lemma createInitialState_sound (mode : GameMode) (tape : list Sample) s :
  createInitialState mode tape = Done s → sound s.
Proof.
  unfold createInitialState. intros H. bind_inv H. injection H as <-.
  apply generateFood_Done in Ha as [Hdraw _].
  unfold sound. simpl. split_and!.
  - exists (mkSnake [(5, 5)] RIGHT), (mkSnake [(GRID_WIDTH - 6, GRID_HEIGHT - 6)] LEFT).
    by split_and!.
  - repeat constructor.
  - done.
  - apply Forall_singleton. by eapply draws_inGrid.
  - exists 0, 0. by split_and!.
Qed.

Lemma startGame_sound (mode : GameMode) (tape : list Sample) prev s :
  startGame mode tape prev = Done s → sound s.
Proof.
  unfold startGame. intros H. bind_inv H. injection H as <-.
  apply createInitialState_sound in Ha. exact Ha.
Qed.

Lemma click_bounds (x y : Z) :
  (x >=? 0) && (x <? 40) && (y >=? 0) && (y <? 30) = inGrid (x, y).
Proof.
  apply eq_true_iff_eq.
  rewrite inGrid_true, !andb_true_iff, !Z.geb_leb, !Z.leb_le, !Z.ltb_lt. simpl.
  unfold GRID_WIDTH, GRID_HEIGHT. lia.
Qed.

Lemma handleClick_sound (x y : Z) prev : sound prev → sound (handleClick x y prev).
Proof.
  intros Hs. unfold handleClick. destruct (negb (isRunning prev)); [done |].
  rewrite click_bounds. destruct (inGrid (x, y)) eqn:Hg; [| done].
  unfold setFoodPosition. destruct (negb (isRunning prev)); [done |].
  destruct (isPositionOccupied _ _ _); [done |].
  destruct Hs as (Hsn & Hseg & Hf & Hfg & Hsc). unfold sound. simpl. split_and!; try done.
  - by destruct (food prev).
  - apply Forall_app. split; [done | by apply Forall_singleton].
Qed.

Lemma setSnakeDirection_sound (snakeIndex : nat) (d : Direction) prev :
  sound prev → (snakeIndex < 2)%nat →
  ∃ s, setSnakeDirection snakeIndex d prev = Done s
       ∧ sound s ∧ isRunning s = isRunning prev ∧ gameMode s = gameMode prev.
Proof.
  intros Hs Hlt.
  assert (∃ s, setSnakeDirection snakeIndex d prev = Done s) as [s H].
  { destruct Hs as ((a & b & Hsn & _) & _). unfold setSnakeDirection. rewrite Hsn.
    destruct snakeIndex as [|[|n]]; [| | lia]; simpl; case_decide; eauto. }
  exists s. split; [done |].
  apply setSnakeDirection_frame in H as (H1 & _ & H3 & H4 & H5 & _ & _ & H8 & _).
  split_and!; [by eapply sound_frame | done | done].
Qed.

Lemma whenKey_sound (cond : bool) (snakeIndex : nat) (d : Direction) prev :
  sound prev → (snakeIndex < 2)%nat →
  ∃ s, whenKey cond snakeIndex d prev = Done s
       ∧ sound s ∧ isRunning s = isRunning prev ∧ gameMode s = gameMode prev.
Proof.
  intros Hs Hlt. unfold whenKey. destruct cond; [by apply setSnakeDirection_sound | eauto].
Qed.

Lemma letterKeys_sound (key : string) prev :
  sound prev →
  ∃ s, letterKeys key prev = Done s
       ∧ sound s ∧ isRunning s = isRunning prev ∧ gameMode s = gameMode prev.
Proof.
  intros Hs. unfold letterKeys.
  destruct (whenKey_sound (String.eqb (toLowerCase key) "w") 0 UP prev Hs)
    as (s1 & -> & Hs1 & Hr1 & Hm1); [lia |]. simpl.
  destruct (whenKey_sound (String.eqb (toLowerCase key) "a") 0 LEFT s1 Hs1)
    as (s2 & -> & Hs2 & Hr2 & Hm2); [lia |]. simpl.
  destruct (whenKey_sound (String.eqb (toLowerCase key) "s") 0 DOWN s2 Hs2)
    as (s3 & -> & Hs3 & Hr3 & Hm3); [lia |]. simpl.
  destruct (whenKey_sound (String.eqb (toLowerCase key) "d") 0 RIGHT s3 Hs3)
    as (s4 & -> & Hs4 & Hr4 & Hm4); [lia |].
  exists s4. split_and!; [done | done | congruence | congruence].
Qed.

Lemma arrowKeys_sound (key : string) prev :
  sound prev →
  ∃ s, arrowKeys key prev = Done s
       ∧ sound s ∧ isRunning s = isRunning prev ∧ gameMode s = gameMode prev.
Proof.
  intros Hs. unfold arrowKeys.
  destruct (whenKey_sound (String.eqb key "ArrowUp") 1 UP prev Hs)
    as (s1 & -> & Hs1 & Hr1 & Hm1); [lia |]. simpl.
  destruct (whenKey_sound (String.eqb key "ArrowLeft") 1 LEFT s1 Hs1)
    as (s2 & -> & Hs2 & Hr2 & Hm2); [lia |]. simpl.
  destruct (whenKey_sound (String.eqb key "ArrowDown") 1 DOWN s2 Hs2)
    as (s3 & -> & Hs3 & Hr3 & Hm3); [lia |]. simpl.
  destruct (whenKey_sound (String.eqb key "ArrowRight") 1 RIGHT s3 Hs3)
    as (s4 & -> & Hs4 & Hr4 & Hm4); [lia |].
  exists s4. split_and!; [done | done | congruence | congruence].
Qed.

Lemma handleKeyDown_sound (key : string) prev :
  sound prev → ∃ s, handleKeyDown key prev = Done s ∧ sound s.
Proof.
  intros Hs. unfold handleKeyDown. destruct (negb (isRunning prev)); [eauto |].
  assert (∃ s1, (if decide (gameMode prev = SINGLE) then letterKeys key prev
                 else Done prev) = Done s1 ∧ sound s1) as (s1 & -> & Hs1).
  { case_decide; [| eauto].
    destruct (letterKeys_sound key prev Hs) as (s1 & H1 & Hs1 & _). eauto. }
  simpl. case_decide; [| eauto].
  destruct (letterKeys_sound key s1 Hs1) as (s2 & -> & Hs2 & _). simpl.
  destruct (arrowKeys_sound key s2 Hs2) as (s3 & -> & Hs3 & _). eauto.
Qed.

Lemma boardStep_sound (e : BoardEvent) prev :
  sound prev →
  boardStep e prev ≠ TypeError ∧ ∀ s, boardStep e prev = Done s → sound s.
Proof.
  intros Hs. destruct e as [tape | x y | key | mode tape | newSpeed newColors]; simpl.
  - unfold gameLoop. destruct (isRunning prev).
    + split; [by apply updateGame_no_TypeError | intros s; by apply updateGame_sound].
    + split; [discriminate | by intros s [= <-]].
  - split; [discriminate | intros s [= <-]; by apply handleClick_sound].
  - destruct (handleKeyDown_sound key prev Hs) as (s' & -> & Hs').
    split; [discriminate | by intros s [= <-]].
  - split; [| intros s; apply startGame_sound].
    unfold startGame, createInitialState.
    pose proof (generateFood_no_TypeError initialSnakes [] tape) as Hgen.
    by destruct (generateFood initialSnakes [] tape).
  - split; [discriminate | by intros s [= <-]].
Qed.

(** X21.  On a sound state a tick never throws, and the state it returns is
    sound; it does return as soon as the tape draws a cell that no snake
    occupies or moves its head to. *)
Theorem tick_on_sound_state (tape : list Sample) prev :
  sound prev →
  updateGame tape prev ≠ TypeError
  ∧ (∀ s, updateGame tape prev = Done s → sound s)
  ∧ ∃ directed, resolveDirections prev = Done directed
                ∧ (freeDraw tape directed → ∃ s, updateGame tape prev = Done s).
Proof.
  intros Hs. split_and!.
  - by apply updateGame_no_TypeError.
  - intros s. by apply updateGame_sound.
  - destruct Hs as ((a & b & Hsn & Ha & Hb) & _ & Hf & _).
    destruct (resolveDirections_returns prev a b Hsn Ha Hb Hf) as (directed & Hres & Hh).
    exists directed. split; [done |]. intros Hfree.
    by apply (updateGame_returns tape prev directed).
Qed.

Lemma boardRun_sound (events : list BoardEvent) prev :
  sound prev →
  boardRun events prev ≠ TypeError ∧ ∀ s, boardRun events prev = Done s → sound s.
Proof.
  revert prev. induction events as [|e rest IH]; intros prev Hs; simpl.
  - split; [discriminate | by intros s [= <-]].
  - destruct (boardStep_sound e prev Hs) as [Hno Hstep].
    destruct (boardStep e prev) as [s1| |]; simpl; [| done | split; discriminate].
    apply IH. by apply Hstep.
Qed.

(** X22.  The state of the provider is sound from the first state on, whatever
    the timer, the pointer, the keyboard, the start buttons and the
    settings do, and none of their handlers ever throws. *)
Theorem board_never_throws (mode : GameMode) (tape : list Sample)
    (events : list BoardEvent) (initial : @GameState PowerUp SnakeEffects) :
  createInitialState mode tape = Done initial →
  sound initial
  ∧ boardRun events initial ≠ TypeError
  ∧ ∀ s, boardRun events initial = Done s → sound s.
Proof.
  intros Hinit%createInitialState_sound. split; [done |]. by apply boardRun_sound.
Qed.

(** ** The handlers of the board *)

Lemma bind_Done_r {A : Type} (m : result A) : (m ≫= fun a => Done a) = m.
Proof. by destruct m. Qed.

Lemma letter_is_no_arrow (key : string) (d d' : Direction) :
  toLowerCase key = letterKey d → key ≠ arrowKey d'.
Proof. intros H ->. destruct d, d'; discriminate H. Qed.

Lemma letterKeys_letter (key : string) (d : Direction) prev :
  toLowerCase key = letterKey d → letterKeys key prev = setSnakeDirection 0 d prev.
Proof.
  intros H. unfold letterKeys. rewrite H.
  destruct d; simpl; by destruct (setSnakeDirection 0 _ prev).
Qed.

Lemma letterKeys_other (key : string) prev :
  (∀ d, toLowerCase key ≠ letterKey d) → letterKeys key prev = Done prev.
Proof.
  intros H. unfold letterKeys.
  pose proof (proj2 (String.eqb_neq _ _) (H UP)) as HU.
  pose proof (proj2 (String.eqb_neq _ _) (H LEFT)) as HL.
  pose proof (proj2 (String.eqb_neq _ _) (H DOWN)) as HD.
  pose proof (proj2 (String.eqb_neq _ _) (H RIGHT)) as HR.
  cbn [letterKey] in HU, HL, HD, HR. by rewrite HU, HL, HD, HR.
Qed.

Lemma arrowKeys_arrow (d : Direction) prev :
  arrowKeys (arrowKey d) prev = setSnakeDirection 1 d prev.
Proof.
  unfold arrowKeys. destruct d; simpl; by destruct (setSnakeDirection 1 _ prev).
Qed.

Lemma arrowKeys_other (key : string) prev :
  (∀ d, key ≠ arrowKey d) → arrowKeys key prev = Done prev.
Proof.
  intros H. unfold arrowKeys.
  pose proof (proj2 (String.eqb_neq _ _) (H UP)) as HU.
  pose proof (proj2 (String.eqb_neq _ _) (H LEFT)) as HL.
  pose proof (proj2 (String.eqb_neq _ _) (H DOWN)) as HD.
  pose proof (proj2 (String.eqb_neq _ _) (H RIGHT)) as HR.
  cbn [arrowKey] in HU, HL, HD, HR. by rewrite HU, HL, HD, HR.
Qed.

Lemma arrow_is_no_letter (d d' : Direction) : toLowerCase (arrowKey d) ≠ letterKey d'.
Proof. destruct d, d'; discriminate. Qed.

Lemma handleKeyDown_by_mode (key : string) (gameState : @GameState PowerUp SnakeEffects) :
  isRunning gameState = true →
  handleKeyDown key gameState =
  match gameMode gameState with
  | SINGLE => letterKeys key gameState
  | MULTIPLAYER => s ← letterKeys key gameState; arrowKeys key s
  | AI_VS_AI => Done gameState
  end.
Proof.
  intros Hrun. unfold handleKeyDown. rewrite Hrun.
  destruct (gameMode gameState); simpl; [| done | done].
  by destruct (letterKeys key gameState).
Qed.

(** X23.  The key map of a running game.  The letters w, a, s, d, in either
    case, turn the first snake UP, LEFT, DOWN, RIGHT in SINGLE and in
    MULTIPLAYER mode; the four arrow keys turn the second snake in
    MULTIPLAYER mode and do nothing in SINGLE mode; every other key does
    nothing; in AI_VS_AI mode no key does anything. *)
Theorem handleKeyDown_keymap (key : string) (d : Direction)
    (gameState : @GameState PowerUp SnakeEffects) :
  isRunning gameState = true →
  (gameMode gameState ≠ AI_VS_AI → toLowerCase key = letterKey d →
   handleKeyDown key gameState = setSnakeDirection 0 d gameState)
  ∧ (gameMode gameState = MULTIPLAYER →
     handleKeyDown (arrowKey d) gameState = setSnakeDirection 1 d gameState)
  ∧ (gameMode gameState = SINGLE → handleKeyDown (arrowKey d) gameState = Done gameState)
  ∧ ((∀ d', toLowerCase key ≠ letterKey d') → (∀ d', key ≠ arrowKey d') →
     handleKeyDown key gameState = Done gameState)
  ∧ (gameMode gameState = AI_VS_AI → handleKeyDown key gameState = Done gameState).
Proof.
  intros Hrun. split_and!.
  - intros Hmode Hkey. rewrite (handleKeyDown_by_mode _ _ Hrun).
    destruct (gameMode gameState); [| | done].
    + by apply letterKeys_letter.
    + rewrite (letterKeys_letter _ d) by done.
      destruct (setSnakeDirection 0 d gameState) as [s| |]; simpl; [| done | done].
      apply arrowKeys_other. intros d'. by eapply letter_is_no_arrow.
  - intros Hm. rewrite (handleKeyDown_by_mode _ _ Hrun), Hm.
    rewrite letterKeys_other by (intros d'; apply arrow_is_no_letter). simpl.
    apply arrowKeys_arrow.
  - intros Hm. rewrite (handleKeyDown_by_mode _ _ Hrun), Hm.
    apply letterKeys_other. intros d'. apply arrow_is_no_letter.
  - intros Hl Ha. rewrite (handleKeyDown_by_mode _ _ Hrun).
    destruct (gameMode gameState); [by apply letterKeys_other | | done].
    rewrite letterKeys_other by done. simpl. by apply arrowKeys_other.
  - intros Hm. by rewrite (handleKeyDown_by_mode _ _ Hrun), Hm.
Qed.

(** X24.  The pointer places food on the board only: a click off the board or
    on a game that is not running changes nothing, a click on the board
    is [setFoodPosition] on that cell, and food that was on the board
    stays on the board. *)
Theorem handleClick_places_on_board (x y : Z) (gameState : @GameState PowerUp SnakeEffects) :
  (inGrid (x, y) = false → handleClick x y gameState = gameState)
  ∧ (isRunning gameState = false → handleClick x y gameState = gameState)
  ∧ (inGrid (x, y) = true → handleClick x y gameState = setFoodPosition (x, y) gameState)
  ∧ (Forall (fun p => inGrid p = true) (food gameState) →
     Forall (fun p => inGrid p = true) (food (handleClick x y gameState))).
Proof.
  unfold handleClick. rewrite click_bounds. split_and!.
  - intros ->. by destruct (negb (isRunning gameState)).
  - by intros ->.
  - intros ->. unfold setFoodPosition. by destruct (negb (isRunning gameState)).
  - intros Hboard. destruct (negb (isRunning gameState)); [done |].
    destruct (inGrid (x, y)) eqn:Hg; [| done]. unfold setFoodPosition.
    destruct (negb (isRunning gameState)); [done |].
    destruct (isPositionOccupied _ _ _); [done |]. simpl.
    apply Forall_app. split; [done | by apply Forall_singleton].
Qed.

(** X25.  Once the game is over nothing but a start button or a change of
    settings changes the state: the timer, the pointer and the keyboard
    leave a state that is not running exactly as it is. *)
Theorem stopped_board_is_frozen (events : list BoardEvent)
    (gameState : @GameState PowerUp SnakeEffects) :
  isRunning gameState = false →
  forallb playsGame events = true →
  boardRun events gameState = Done gameState.
Proof.
  intros Hoff. induction events as [|e rest IH]; simpl; [done |].
  intros [He Hrest]%andb_true_iff.
  assert (boardStep e gameState = Done gameState) as ->.
  { destruct e; try discriminate He; simpl.
    - unfold gameLoop. by rewrite Hoff.
    - unfold handleClick. by rewrite Hoff.
    - unfold handleKeyDown. by rewrite Hoff. }
  simpl. by apply IH.
Qed.

End More_store_properties.

(** ** Worked instances of the further properties *)

Lemma runningGame_sound : sound runningGame.
Proof.
  unfold sound. split_and!.
  - eexists _, _. split_and!; [reflexivity | discriminate | discriminate].
  - repeat constructor.
  - discriminate.
  - repeat constructor.
  - exists 0, 0. by split_and!.
Defined.

Example scenario_answer : getNextDirection scenarioSnake [(10, 5)] farSnake = Done UP.
Proof. reflexivity. Qed.

Lemma getNextDirection_never_reverses_witness :
  UP ≠ opposites (direction scenarioSnake).
Proof.
  apply (getNextDirection_never_reverses scenarioSnake farSnake [(10, 5)] UP). reflexivity.
Defined.

Lemma getNextDirection_safe_when_possible_witness :
  isSafeMove (getNextPosition (10, 10) UP) [scenarioSnake; farSnake] = true
  ∨ (UP = direction scenarioSnake
     ∧ ∀ d', d' ≠ opposites (direction scenarioSnake) →
             isSafeMove (getNextPosition (10, 10) d') [scenarioSnake; farSnake] = false).
Proof.
  apply (getNextDirection_safe_when_possible scenarioSnake farSnake [(10, 5)] UP (10, 10));
    reflexivity.
Defined.

Lemma getNextDirection_avoids_predicted_head_witness :
  getNextPosition (10, 10) UP ≠ getNextPosition (34, 24) (direction farSnake)
  ∧ isSafeMove (getNextPosition (10, 10) UP) [scenarioSnake; farSnake] = true.
Proof.
  apply (getNextDirection_avoids_predicted_head scenarioSnake farSnake [(10, 5)] UP DOWN
           (10, 10) (34, 24));
    [reflexivity | reflexivity | reflexivity | discriminate | reflexivity | discriminate].
Defined.

Lemma getNextDirection_greedy_witness :
  ∃ target,
    target ∈ [(10, 5)]
    ∧ (∀ f, f ∈ [(10, 5)] → manhattan target (10, 10) ≤ manhattan f (10, 10))
    ∧ ∀ d', d' ≠ opposites (direction scenarioSnake) →
            isSafeMove (getNextPosition (10, 10) d') [scenarioSnake; farSnake] = true →
            getNextPosition (10, 10) d' ≠ getNextPosition (34, 24) (direction farSnake) →
            manhattan (getNextPosition (10, 10) UP) target
            ≤ manhattan (getNextPosition (10, 10) d') target.
Proof.
  apply (getNextDirection_greedy scenarioSnake farSnake [(10, 5)] UP (10, 10) (34, 24));
    reflexivity.
Defined.

Lemma setFoodPosition_keeps_food_apart_witness :
  food runningGame `prefix_of` food (setFoodPosition (1, 1) runningGame)
  ∧ snakes (setFoodPosition (1, 1) runningGame) = snakes runningGame
  ∧ NoDup (food (setFoodPosition (1, 1) runningGame))
  ∧ ∀ f snake, f ∈ food (setFoodPosition (1, 1) runningGame) → snake ∈ snakes runningGame →
               f ∉ body snake.
Proof.
  apply (setFoodPosition_keeps_food_apart (1, 1) runningGame).
  - compute_done.
  - intros f snake Hf Hs.
    apply list_elem_of_singleton in Hf as ->.
    repeat (apply elem_of_cons in Hs as [-> | Hs]; [compute_done |]).
    by apply elem_of_nil in Hs.
Defined.

Lemma two_turns_reverse_witness :
  setSnakeDirection 0 (opposites RIGHT) runningGame = Done runningGame
  ∧ (setSnakeDirection 0 UP runningGame ≫= setSnakeDirection 0 (opposites RIGHT))
    = Done (withSnakes runningGame
              (<[0%nat := withDirection (mkSnake [(5, 5)] RIGHT) (opposites RIGHT)]>
                 (snakes runningGame))).
Proof.
  apply (two_turns_reverse 0 UP (mkSnake [(5, 5)] RIGHT) runningGame);
    [reflexivity | discriminate | discriminate].
Defined.

Lemma tick_keeps_snakes_witness :
  allHeaded (snakes atWall)
  ∧ length (snakes atWallAfter) = length (snakes atWall)
  ∧ allHeaded (snakes atWallAfter)
  ∧ (gameMode atWall = MULTIPLAYER →
     ∀ i, direction <$> snakes atWallAfter !! i = direction <$> snakes atWall !! i).
Proof. apply (tick_keeps_snakes centreTape atWall atWallAfter). reflexivity. Defined.

Lemma tick_keeps_snakes_on_board_witness :
  Forall (fun p => inGrid p = true) (allSegments (snakes atWallAfter)).
Proof.
  apply (tick_keeps_snakes_on_board centreTape atWall atWallAfter);
    [reflexivity | repeat constructor].
Defined.

Lemma tick_keeps_food_on_board_witness :
  (∀ f, f ∈ food atWallAfter →
        f ∈ food atWall
        ∨ (food atWallAfter = [f] ∧ inGrid f = true
           ∧ ∀ snake, snake ∈ snakes atWallAfter → f ∉ body snake))
  ∧ (Forall (fun p => inGrid p = true) (food atWall) →
     Forall (fun p => inGrid p = true) (food atWallAfter)).
Proof. apply (tick_keeps_food_on_board centreTape atWall atWallAfter). reflexivity. Defined.

Lemma tick_grows_with_score_witness :
  ∃ snake',
    snakes atWallAfter !! 1%nat = Some snake'
    ∧ ((length (body snake') = length [(34, 24); (35, 24)]
        ∧ scores atWallAfter !! 1%nat = scores atWall !! 1%nat)
       ∨ (length (body snake') = S (length [(34, 24); (35, 24)])
          ∧ scores atWallAfter !! 1%nat
            = fmap (fun n => n + 1) <$> scores atWall !! 1%nat)).
Proof.
  apply (tick_grows_with_score centreTape atWall atWallAfter 1
           (mkSnake [(34, 24); (35, 24)] LEFT));
    [reflexivity | reflexivity | simpl; lia].
Defined.

Lemma running_after_tick_witness :
  isRunning twoMeals = true
  ∧ NoDup (allSegments (snakes twoMealsAfter))
  ∧ ∀ i snake, snakes twoMeals !! i = Some snake →
      ∃ h snake', newHead snake = Some h ∧ inGrid h = true
                  ∧ snakes twoMealsAfter !! i = Some snake'
                  ∧ body snake' !! 0%nat = Some h.
Proof.
  apply (running_after_tick [] twoMeals twoMealsAfter (snakes twoMeals)); reflexivity.
Defined.

Lemma tick_on_sound_state_witness :
  updateGame centreTape runningGame ≠ TypeError
  ∧ (∀ s, updateGame centreTape runningGame = Done s → sound s)
  ∧ ∃ directed, resolveDirections runningGame = Done directed
                ∧ (freeDraw centreTape directed →
                   ∃ s, updateGame centreTape runningGame = Done s).
Proof. apply (tick_on_sound_state centreTape runningGame). exact runningGame_sound. Defined.

Lemma board_never_throws_witness :
  sound firstState
  ∧ boardRun [Starts SINGLE centreTape; TimerFires centreTape; Presses "w"; Clicks 3 4]
      firstState ≠ TypeError
  ∧ ∀ s, boardRun [Starts SINGLE centreTape; TimerFires centreTape; Presses "w"; Clicks 3 4]
           firstState = Done s → sound s.
Proof. apply (board_never_throws SINGLE centreTape). reflexivity. Defined.

Lemma handleKeyDown_keymap_witness :
  (gameMode runningGame ≠ AI_VS_AI → toLowerCase "W" = letterKey UP →
   handleKeyDown "W" runningGame = setSnakeDirection 0 UP runningGame)
  ∧ (gameMode runningGame = MULTIPLAYER →
     handleKeyDown (arrowKey UP) runningGame = setSnakeDirection 1 UP runningGame)
  ∧ (gameMode runningGame = SINGLE → handleKeyDown (arrowKey UP) runningGame = Done runningGame)
  ∧ ((∀ d', toLowerCase "W" ≠ letterKey d') → (∀ d', "W"%string ≠ arrowKey d') →
     handleKeyDown "W" runningGame = Done runningGame)
  ∧ (gameMode runningGame = AI_VS_AI → handleKeyDown "W" runningGame = Done runningGame).
Proof. apply (handleKeyDown_keymap "W" UP runningGame). reflexivity. Defined.

Lemma stopped_board_is_frozen_witness :
  boardRun [TimerFires centreTape; Clicks 3 4; Presses "w"] stoppedGame = Done stoppedGame.
Proof.
  apply (stopped_board_is_frozen [TimerFires centreTape; Clicks 3 4; Presses "w"] stoppedGame);
    reflexivity.
Defined.
